(** * pycorr.stats.boot: circular block bootstrap for time series

    A shallow embedding of [pycorr/stats/boot.py] and the properties of its
    index sampler, kernel, block-length selector, bootstrap runner and
    two-group difference bootstrap.

    Conventions of the embedding.
    - Python integers are [Z]; counts that the code only uses as sizes are
      [nat].
    - A float64 is an [npfloat]: NaN, the two infinities, or a finite value
      carried as an exact rational.  The operations used on floats by the
      modelled lines (comparison, absolute value, subtraction followed by a
      sign test, rounding to the nearest integer) are exact on float64, so
      they are written on the rational.  The sum and product of [lam] are
      exact on the arguments for which it is studied, see there.
    - Raising an exception is the [Raise] result; the interpreter state
      (object store and generator position) survives it.
    - numpy's global random generator is a tape of raw draws with a read
      position; [randint] reduces each raw draw into the requested range, so
      every matrix of in-range values is the output of some tape. *)

From Stdlib Require Import ZArith QArith Qround Qabs Lia Lqa.
From stdpp Require Import gmap strings list.

Local Open Scope Z_scope.

(** ** Exceptions and results *)

Inductive exn : Type :=
  | UnboundLocalError
  | ZeroDivisionError
  | ValueError
  | IndexError
  | AssertionError
  | Exception_ (msg : string).

Inductive result (A : Type) : Type :=
  | Ok (a : A)
  | Raise (e : exn).
Arguments Ok {A} a.
Arguments Raise {A} e.

(** ** float64 values *)

Inductive npfloat : Type :=
  | NaN
  | NegInf
  | Fin (q : Q)
  | PosInf.

(** [a < b] on floats; false as soon as one side is NaN. *)
Definition flt (a b : npfloat) : bool :=
  match a, b with
  | NaN, _ | _, NaN => false
  | _, NegInf => false
  | NegInf, _ => true
  | PosInf, _ => false
  | Fin _, PosInf => true
  | Fin x, Fin y => if Qlt_le_dec x y then true else false
  end.

(** [a > b] and [a <= b], with the same treatment of NaN. *)
Definition fgt (a b : npfloat) : bool := flt b a.

Definition fle (a b : npfloat) : bool :=
  match a, b with
  | NaN, _ | _, NaN => false
  | NegInf, _ => true
  | _, PosInf => true
  | _, NegInf => false
  | PosInf, _ => false
  | Fin x, Fin y => if Qlt_le_dec y x then false else true
  end.

(** [np.abs]. *)
Definition fabs (a : npfloat) : npfloat :=
  match a with
  | NaN => NaN
  | NegInf | PosInf => PosInf
  | Fin x => Fin (Qabs x)
  end.

(** [a - b]; only the sign of a finite difference is ever inspected. *)
Definition fsub (a b : npfloat) : npfloat :=
  match a, b with
  | NaN, _ | _, NaN => NaN
  | PosInf, PosInf | NegInf, NegInf => NaN
  | PosInf, _ | _, NegInf => PosInf
  | NegInf, _ | _, PosInf => NegInf
  | Fin x, Fin y => Fin (x - y)
  end.

(** Round half to even, the rule of [np.round] / [rint]. *)
Definition rint (x : Q) : Z :=
  let f := Qfloor x in
  let d := (x - inject_Z f)%Q in
  match (d ?= 1 # 2)%Q with
  | Lt => f
  | Gt => f + 1
  | Eq => if Z.even f then f else f + 1
  end.

Definition fround (a : npfloat) : npfloat :=
  match a with
  | Fin x => Fin (inject_Z (rint x))
  | _ => a
  end.

(** ** Interpreter state: object store and random generator *)

(** A slot of an output collection: Python's [None] or a stored result row. *)
Abbreviation row := (list npfloat) (only parsing).
Abbreviation buffer := (list (option row)) (only parsing).

Abbreviation loc := positive (only parsing).

Record world : Type := World {
  heap : gmap loc buffer;   (* mutable output collections, by identity *)
  tape : nat → Z;           (* raw draws of the global generator *)
  drawn : nat               (* how many raw draws were consumed *)
}.

Definition M (A : Type) : Type := world → result A * world.

Definition ret {A} (a : A) : M A := λ w, (Ok a, w).

Definition bind {A B} (m : M A) (k : A → M B) : M B :=
  λ w, match m w with
       | (Ok a, w') => k a w'
       | (Raise e, w') => (Raise e, w')
       end.

Definition raise {A} (e : exn) : M A := λ w, (Raise e, w).

#[global] Instance M_ret : MRet M := @ret.
#[global] Instance M_bind : MBind M := λ A B k m, bind m k.

(** ** numpy.random.randint *)

(** [randint(high, size=(rows, cols))]: [rows * cols] draws in [[0, high)],
    row-major.  A negative dimension is an error, and so is a non-positive
    [high] unless no draw is requested: for a size with a zero dimension
    the empty array of that shape comes back without a look at the range or
    at the generator. *)
Definition randint (high : Z) (rows : nat) (cols : Z) : M (list (list Z)) :=
  λ w,
    if (cols <? 0) || ((high <=? 0) && negb (rows * Z.to_nat cols =? 0)%nat)
    then (Raise ValueError, w)
    else
      let c := Z.to_nat cols in
      (Ok ((λ i, (λ j, tape w (drawn w + i * c + j)%nat `mod` high)
                   <$> seq 0 c) <$> seq 0 rows),
       World (heap w) (tape w) (drawn w + rows * c)).

(** ** circ *)

(** [circ(start, l, maxlen)]: starts whose block would run past the end are
    moved back by [maxlen], so that adding [0..l-1] yields negative indexes
    that numpy reads from the end of the axis.  The source edits the array
    in place; the only reference to it is the caller's local [blocks], so
    the result is returned. *)
Definition circ (start : list (list Z)) (l maxlen : Z) : list (list Z) :=
  (λ r : list Z, (λ s, if maxlen - s <? l then s - maxlen else s) <$> r) <$> start.

(** ** bootstrap_ts_indexes *)

(** [ndarray.flatten(order='F')] of a 2D array given by its rows. *)
Definition flatten_F (rows : list (list Z)) : list Z :=
  let ncols := match rows with [] => 0%nat | r :: _ => length r end in
  mjoin ((λ j, (λ r : list Z, r !!! j) <$> rows) <$> seq 0 ncols).

(** [expand_block = lambda block:
      np.array([block + ii for ii in xrange(l)]).flatten(order='F')] *)
Definition expand_block (l : Z) (block : list Z) : list Z :=
  flatten_F ((λ ii, (λ s, s + ii) <$> block) <$> seqZ 0 l).

(** [int(np.ceil(npoints / float(l)))]; dividing by [0.0] raises. *)
Definition ceil_div (npoints l : Z) : M Z :=
  if l =? 0 then raise ZeroDivisionError else ret (- ((- npoints) `div` l)).

Definition bootstrap_ts_indexes {T} (data : list T) (l : Z) (n_samples : nat)
    (method : string) : M (list (list Z)) :=
  let npoints := Z.of_nat (length data) in
  indexes ← (if String.eqb method "circular" then
                N ← ceil_div npoints l;
                blocks ← randint npoints n_samples N;
                let blocks := circ blocks l npoints in
                ret (Some (expand_block l <$> blocks))
              else ret None);
  match indexes with
  | None => raise UnboundLocalError        (* [indexes] was never bound *)
  | Some indexes => ret (take (length data) <$> indexes)
  end.

(** ** Pure code that may raise *)

#[global] Instance result_ret : MRet result := @Ok.
#[global] Instance result_bind : MBind result := λ A B k m,
  match m with
  | Ok a => k a
  | Raise e => Raise e
  end.

Definition lift {A} (m : result A) : M A := λ w, (m, w).

Fixpoint for_each {A B} (f : A → result B) (xs : list A) : result (list B) :=
  match xs with
  | [] => Ok []
  | x :: xs' => y ← f x; ys ← for_each f xs'; Ok (y :: ys)
  end.

(** [xs[i]] for a non-negative position. *)
Definition item {A} (i : nat) (xs : list A) : result A :=
  match xs !! i with
  | Some x => Ok x
  | None => Raise IndexError
  end.

(** ** lam *)

(** Arithmetic of floats as [lam] uses it.  Infinities and NaN follow
    IEEE 754 (an infinity times zero is NaN); on finite values the sum and
    the product are written on the rationals, which is what float64 gives
    wherever [lam] is looked at below: for [|s| <= 1] the difference
    [1 - |s|] is exact when [|s| >= 0.5], its double is exact, and when
    [|s| < 0.5] it is multiplied by a false comparison, which gives [0.0]
    whatever its last bit. *)
Definition fge (a b : npfloat) : bool := fle b a.

Definition fadd (a b : npfloat) : npfloat :=
  match a, b with
  | NaN, _ | _, NaN => NaN
  | PosInf, NegInf | NegInf, PosInf => NaN
  | PosInf, _ | _, PosInf => PosInf
  | NegInf, _ | _, NegInf => NegInf
  | Fin x, Fin y => Fin (x + y)
  end.

Definition fmul (a b : npfloat) : npfloat :=
  match a, b with
  | NaN, _ | _, NaN => NaN
  | Fin x, Fin y => Fin (x * y)
  | Fin x, PosInf | PosInf, Fin x =>
      match (x ?= 0)%Q with Eq => NaN | Lt => NegInf | Gt => PosInf end
  | Fin x, NegInf | NegInf, Fin x =>
      match (x ?= 0)%Q with Eq => NaN | Lt => PosInf | Gt => NegInf end
  | PosInf, PosInf | NegInf, NegInf => PosInf
  | PosInf, NegInf | NegInf, PosInf => NegInf
  end.

(** A numpy boolean where a float is needed. *)
Definition of_bool (b : bool) : npfloat := Fin (if b then 1 else 0).

(** Lines 28-29, on one element of [s].  The product of two comparisons is
    again a boolean; it becomes a number when the float term is added. *)
Definition lam (s : npfloat) : npfloat :=
  fadd (of_bool (fge (fabs s) (Fin 0) && flt (fabs s) (Fin (1 # 2))))
       (fmul (fmul (fmul (Fin 2) (fsub (Fin 1) (fabs s)))
                   (of_bool (fge (fabs s) (Fin (1 # 2)))))
             (of_bool (fle (fabs s) (Fin 1)))).

(** ** b_star *)

(** What a name of [b_star] may hold after the [mhat] branches: a plain
    number, or an integer ndarray. *)
Inductive mval : Type :=
  | Scalar (m : Z)
  | Indexes (ms : list Z).

(** [np.sum] and [np.any] of a boolean array. *)
Definition np_sum (mask : list bool) : nat :=
  length (filter (λ b, b = true) mask).

Definition np_any (mask : list bool) : bool := existsb id mask.

(** Positions of the true entries, in increasing order. *)
Fixpoint nonzero_from (i : nat) (mask : list bool) : list nat :=
  match mask with
  | [] => []
  | b :: mask' =>
      if b then i :: nonzero_from (S i) mask' else nonzero_from (S i) mask'
  end.

(** [np.where(mask)] of a 1D mask: a tuple holding one index array. *)
Definition np_where (mask : list bool) : list (list nat) :=
  [nonzero_from 0 mask].

(** The builtin [max] of a sequence of arrays.  A single item is returned
    as it is, without any comparison; comparing two arrays has no truth
    value. *)
Definition py_max {A} (items : list A) : result A :=
  match items with
  | [x] => Ok x
  | _ => Raise ValueError
  end.

(** Lines 46-56: the autocorrelations [rho_k] of lags 1, 2, ..., the
    significance threshold, and the choice of [mhat]. *)
Definition mhat_of (rho_k : list npfloat) (rho_k_crit : npfloat)
    (Kn mmax : nat) : result mval :=
  let insig := (λ r, flt (fabs r) rho_k_crit) <$> rho_k in
  let num_insig :=
    (λ jj, np_sum (take Kn (drop jj insig))) <$> seq 0 (mmax + 1 - Kn) in
  let full := (λ c, Nat.eqb c Kn) <$> num_insig in
  if np_any full then
    first ← item 0 (np_where full);
    jj ← item 0 first;
    Ok (Scalar (Z.of_nat jj + 1))
  else
    let sig := (λ r, fgt (fabs r) rho_k_crit) <$> rho_k in
    if np_any sig then
      found ← py_max (np_where sig);
      Ok (Indexes ((λ i, Z.of_nat i + 1) <$> found))
    else Ok (Scalar 1).

(** Line 58: [M = min(2*mhat, mmax)].  The builtin [min] keeps its first
    argument unless [mmax < 2*mhat] is true; for an array that test is
    elementwise and only an array of one element has a truth value. *)
Definition select_M (mhat : mval) (mmax : nat) : result mval :=
  match mhat with
  | Scalar m =>
      Ok (Scalar (if Z.of_nat mmax <? 2 * m then Z.of_nat mmax else 2 * m))
  | Indexes ms =>
      let smaller : list bool := (λ m, Z.of_nat mmax <? 2 * m) <$> ms in
      match smaller with
      | [] => Ok (Indexes [])
      | [b] => Ok (if b then Scalar (Z.of_nat mmax)
                   else Indexes ((λ m, 2 * m) <$> ms))
      | _ => Raise ValueError
      end
  end.

(** Lines 69-71, the body of [if round:]. *)
Definition clamp_round (Bmax : npfloat) (BstarCB : list npfloat)
    : list npfloat :=
  let BstarCB := (λ b, if fgt b Bmax then Bmax else b) <$> BstarCB in
  let BstarCB := (λ b, if flt b (Fin 1) then Fin 1 else b) <$> BstarCB in
  fround <$> BstarCB.

(** Lines 46-47 on their own: the mask of insignificant lags and, for
    each window start, how many of the [Kn] lags from there are
    insignificant. *)
Definition insig (rho_k : list npfloat) (rho_k_crit : npfloat) : list bool :=
  (λ r, flt (fabs r) rho_k_crit) <$> rho_k.

Definition num_insig (rho_k : list npfloat) (rho_k_crit : npfloat)
    (Kn mmax : nat) : list nat :=
  (λ jj, np_sum (take Kn (drop jj (insig rho_k rho_k_crit))))
    <$> seq 0 (mmax + 1 - Kn).

Abbreviation series := (list npfloat) (only parsing).

(** The argument of [b_star] by its number of axes. *)
Inductive samples : Type :=
  | Array1 (x : series)                 (* shape (n,) *)
  | Array2 (columns : list series)      (* shape (n, k), by column *)
  | ArrayN (ndim : nat).                (* any other number of axes *)

Section b_star.
(** The numerical library calls of the loop body stay abstract: [acf] is
    [statsmodels.tsa.stattools.acf] (lag 0 first), and [block_estimate] is
    what lines 59-66 compute from the series and [M] with [ccovf], [lam]
    and float powers (a value, or an exception of those calls).  The
    optional arguments come resolved: [Kn], [mmax] and [Bmax] are the values
    in force after lines 38-41, and [rho_k_crit] is the value of
    [c * np.sqrt(np.log10(n)/n)]. *)
Variable acf : series → list npfloat.
Variable block_estimate : series → mval → result npfloat.

Definition b_star (data : samples) (Kn mmax : nat) (Bmax rho_k_crit : npfloat)
    (round : bool) : result (list npfloat) :=
  columns ← match data with
            | Array1 x => Ok [x]
            | Array2 columns => Ok columns
            | ArrayN ndim =>
                if (2 <? ndim)%nat
                then Raise (Exception_ "data may not be greater than 2d")
                else Raise ValueError     (* [n, k = data.shape] *)
            end;
  BstarCB ← for_each (λ x,
               let rho_k := tail (acf x) in
               mhat ← mhat_of rho_k rho_k_crit Kn mmax;
               M ← select_M mhat mmax;
               block_estimate x M) columns;
  Ok (if round then clamp_round Bmax BstarCB else BstarCB).
End b_star.

(** ** ts_boot *)

(** An array whose last axis is time, as the sequence of its slices
    [data[..., t]]; the leading axes of a slice are flattened. *)
Abbreviation frame := (list npfloat) (only parsing).
Abbreviation timeseries := (list frame) (only parsing).

(** The place on an axis of length [n] that numpy reads for the integer
    index [e]: negative indexes count from the end. *)
Definition position (n e : Z) : Z := if e <? 0 then e + n else e.

(** [data[..., e]] for one integer [e]; anything outside [[-n, n)] is an
    [IndexError]. *)
Definition take_index (data : timeseries) (e : Z) : result frame :=
  let n := Z.of_nat (length data) in
  let i := position n e in
  if (i <? 0) || (n <=? i) then Raise IndexError else item (Z.to_nat i) data.

(** [data[..., boot_indx]] for an index array. *)
Definition fancy_index (boot_indx : list Z) (data : timeseries)
    : result timeseries :=
  for_each (take_index data) boot_indx.

(** Allocation of a new collection, and reading one. *)
Definition alloc (b : buffer) : M loc := λ w,
  let p := fresh (dom (heap w)) in
  (Ok p, World (<[p:=b]> (heap w)) (tape w) (drawn w)).

Definition contents (p : loc) : M buffer := λ w,
  (Ok (default [] (heap w !! p)), w).

(** The value that [out[ii] = v] leaves in slot [ii].  A list slot takes
    the object; a row of a float array takes a value of its own width, or
    a single number repeated. *)
Definition assign (old : option row) (v : row) : result row :=
  match old with
  | None => Ok v
  | Some r =>
      if (length v =? length r)%nat then Ok v
      else match v with
           | [x] => Ok (replicate (length r) x)
           | _ => Raise ValueError
           end
  end.

(** [out[ii] = v]. *)
Definition setitem (p : loc) (ii : nat) (v : row) : M unit := λ w,
  let b := default [] (heap w !! p) in
  match b !! ii with
  | None => (Raise IndexError, w)
  | Some old =>
      match assign old v with
      | Ok v' => (Ok (), World (<[p := <[ii := Some v']> b]> (heap w))
                               (tape w) (drawn w))
      | Raise e => (Raise e, w)
      end
  end.

Section ts_boot.
Variable func : list timeseries → row.

(** Lines 92-94, from replicate [ii] on. *)
Fixpoint ts_boot_loop (dlist : list timeseries) (out : loc) (ii : nat)
    (indexes : list (list Z)) : M unit :=
  match indexes with
  | [] => ret ()
  | boot_indx :: indexes' =>
      sample ← lift (for_each (fancy_index boot_indx) dlist);
      _ ← setitem out ii (func sample);
      ts_boot_loop dlist out (S ii) indexes'
  end.

(** [out] is [None] or an existing collection; [indx_file] is [None] for
    the empty file name, or the matrix that [np.load] reads. *)
Definition ts_boot (dlist : list timeseries) (l : Z) (n_samples : nat)
    (method : string) (out : option loc)
    (indx_file : option (list (list Z))) : M buffer :=
  if negb (length (remove_dups (length <$> dlist)) =? 1)%nat
  then raise AssertionError
  else
    example_tc ← lift (item 0 dlist);
    out ← match out with
          | None => alloc (replicate n_samples None)
          | Some p => ret p
          end;
    indexes ← match indx_file with
              | None => bootstrap_ts_indexes example_tc l n_samples "circular"
              | Some saved => ret saved
              end;
    _ ← ts_boot_loop dlist out 0 indexes;
    contents out.
End ts_boot.

(** ** run_boot_within_isc_diff *)

#[global] Instance npfloat_inhabited : Inhabited npfloat := populate NaN.

(** Elementwise [a - b] of two 1D arrays under numpy broadcasting. *)
Definition np_sub (a b : row) : result row :=
  if (length a =? length b)%nat then Ok (zip_with fsub a b)
  else match a, b with
       | [x], _ => Ok (fsub x <$> b)
       | _, [y] => Ok ((λ x, fsub x y) <$> a)
       | _, _ => Raise ValueError
       end.

(** [arr.transpose(swap_dims)]: the replicate axis of an [(n_reps, m)]
    array moves last. *)
Definition transpose (m : nat) (arr : buffer) : list (list npfloat) :=
  (λ j, (λ r : option row, default [] r !!! j) <$> arr) <$> seq 0 m.

(** [mask.mean(axis=-1)] of one row of booleans; the mean of nothing is
    NaN. *)
Definition np_mean (mask : list bool) : npfloat :=
  match mask with
  | [] => NaN
  | _ => Fin (Z.of_nat (np_sum mask) # Pos.of_nat (length mask))
  end.

Record isc_diff : Type := IscDiff {
  distA : list (list npfloat);
  distB : list (list npfloat);
  r : row;
  p_gt : list npfloat;
  p_ltq : list npfloat
}.

Section run_boot_within_isc_diff.
(** [calc_mean_isc] is
    [intersubcorr(crosscor(dlist, standardized=True)).mean(axis=-1)], from
    [pycorr.funcs_correlate]; the bootstrap only applies it. *)
Variable calc_mean_isc : list timeseries → row.

Definition run_boot_within_isc_diff (A B : list timeseries) (l : Z)
    (n_reps : nat) (out_arr : option loc) : M isc_diff :=
  A0 ← lift (item 0 A);
  let m := match A0 with [] => 0%nat | f :: _ => length f end in
  out_arr ← alloc (replicate n_reps (Some (replicate m (Fin 0))));
  zeros ← contents out_arr;
  outA ← alloc zeros;
  dA ← ts_boot calc_mean_isc A l n_reps "circular" (Some outA) None;
  zeros ← contents out_arr;
  outB ← alloc zeros;
  dB ← ts_boot calc_mean_isc B l n_reps "circular" (Some outB) None;
  let dA := transpose m dA in
  let dB := transpose m dB in
  rr ← lift (np_sub (calc_mean_isc A) (calc_mean_isc B));
  let diff := zip_with (zip_with fsub) dA dB in
  ret (IscDiff dA dB rr
         ((λ d, np_mean ((λ x, fgt x (Fin 0)) <$> d)) <$> diff)
         ((λ d, np_mean ((λ x, fle x (Fin 0)) <$> d)) <$> diff)).
End run_boot_within_isc_diff.

(** ** Independence from a stored object *)

(** Two interpreter states that differ at most in what is stored at [p]. *)
Definition agree (p : loc) (w1 w2 : world) : Prop :=
  p ∈ dom (heap w1) ∧ dom (heap w1) = dom (heap w2) ∧
  tape w1 = tape w2 ∧ drawn w1 = drawn w2 ∧
  ∀ q, q ≠ p → heap w1 !! q = heap w2 !! q.

(** A computation that does not look at the object [p]: from two such
    states it produces the same outcome and two such states again. *)
Definition blind (p : loc) {A} (m : M A) (w1 w2 : world) : Prop :=
  (m w1).1 = (m w2).1 ∧ agree p (m w1).2 (m w2).2.

(** A computation that neither reads nor advances the random generator:
    it leaves tape and position alone, and with any other generator state
    in place it does the same to the store and gives the same outcome. *)
Definition ignores_generator {A} (m : M A) : Prop :=
  ∀ w,
    tape (m w).2 = tape w ∧ drawn (m w).2 = drawn w ∧
    ∀ t d, m (World (heap w) t d) = ((m w).1, World (heap (m w).2) t d).

(** ** Initial states for examples *)

(** A fresh interpreter whose generator will produce the given raw draws
    (and zeros after them). *)
Definition world_of_draws (draws : list Z) : world :=
  World ∅ (λ i, draws !!! i) 0.

(** The same, with one collection already in the store at address 1. *)
Definition world_with_buffer (b : buffer) (draws : list Z) : world :=
  World {[1%positive := b]} (λ i, draws !!! i) 0.

(** ** Worked inputs for [b_star] *)

(** The series [1, 0, -1, 0, 0, 0, 0, 0] ([n = 8]), for which the defaults
    are [Kn = 5], [mmax = 8], [Bmax = 3] and [rho_k_crit] is about 0.6585.
    Its mean is 0 and its biased autocovariances are
    [1/4, 0, -1/8, 0, ...], so [acf] returns [1, 0, -1/2, 0, ...].  With
    [M = 2] the kernel weights on the lags [-2..2] are [0, 1, 1, 1, 0],
    hence [Ghat = 0], [DCBhat = 1/12] and the estimate is [0.0].  The two
    functions below hold these values of the library calls. *)
Definition short_pulse : series := Fin <$> [1; 0; -1; 0; 0; 0; 0; 0]%Q.

Definition acf_short_pulse : series → list npfloat :=
  λ _, Fin <$> [1; 0; -1 # 2; 0; 0; 0; 0; 0]%Q.

Definition estimate_short_pulse : series → mval → result npfloat :=
  λ _ _, Ok (Fin 0).

(** The series [x_t = (-1)^t] for [t = 0..99], for which the defaults are
    [Kn = 5], [mmax = 15], [Bmax = 30] and [rho_k_crit] is about 0.2772.
    Its mean is 0 and its autocorrelation at lag [k] is
    [(-1)^k (100 - k) / 100]; [acf] returns the lags 0 to 40. *)
Definition alternating : series :=
  (λ t, Fin (if Nat.even t then 1 else -1)%Q) <$> seq 0 100.

Definition acf_alternating : series → list npfloat :=
  λ _, (λ k, Fin ((if Nat.even k then 1 else -1) * (100 - Z.of_nat k) # 100))
         <$> seq 0 41.

(** The series with a one at [t = 0, 5, 10] and zeros elsewhere
    ([n = 15]), for which the defaults are [Kn = 5], [mmax = 9], [Bmax = 5]
    and [rho_k_crit] is about 0.5488.  Its mean is 1/5; [acf] returns the
    lags 0 to 14, of which only lag 5 exceeds the threshold. *)
Definition seasonal : series :=
  (λ t, Fin (if (t mod 5 =? 0)%nat then 1 else 0)%Q) <$> seq 0 15.

Definition acf_seasonal : series → list npfloat :=
  λ _, Fin <$> [1; -11 # 60; -1 # 5; -13 # 60; -7 # 30; 2 # 3; -1 # 10;
                -7 # 60; -2 # 15; -3 # 20; 1 # 3; -1 # 60; -1 # 30;
                -1 # 20; -1 # 15]%Q.

(** ** A worked statistic for [ts_boot] *)

(** A statistic of fixed shape, standing for the caller's function in the
    examples: the first resampled slice of the first member. *)
Definition first_slice (sample : list timeseries) : row :=
  default [] (head (default [] (head sample))).

(** Two members measured at the same three time points, one location. *)
Definition paired_bundle : list timeseries :=
  [[[Fin 1]; [Fin 2]; [Fin 3]]; [[Fin 10]; [Fin 20]; [Fin 30]]].

(** One member whose only location was thresholded to NaN at every time
    point, and one member with numbers there. *)
Definition thresholded_group : list timeseries := [[[NaN]; [NaN]; [NaN]]].

Definition measured_group : list timeseries := [[[Fin 1]; [Fin 2]; [Fin 3]]].

(** * Properties *)

(** ** The index sampler *)

Lemma randint_run high rows cols w :
  0 < high → 0 ≤ cols →
  ∃ blocks w',
    randint high rows cols w = (Ok blocks, w') ∧
    heap w' = heap w ∧
    length blocks = rows ∧
    Forall (λ b, length b = Z.to_nat cols ∧ Forall (λ s, 0 ≤ s < high) b)
           blocks.
Proof.
  intros Hh Hc. unfold randint.
  destruct (Z.leb_spec high 0); [lia|].
  destruct (Z.ltb_spec cols 0); [lia|]. simpl.
  eexists _, _. split; [reflexivity|]. split; [reflexivity|].
  split; [by rewrite length_fmap, length_seq|].
  apply Forall_fmap, Forall_forall. intros i _. simpl.
  split; [by rewrite length_fmap, length_seq|].
  apply Forall_fmap, Forall_forall. intros j _. simpl.
  apply Z.mod_pos_bound; lia.
Qed.

(** Entry [(i, j)] of a matrix in its row-major flattening. *)
Lemma join_lookup_total (blocks : list (list Z)) (c i j : nat) :
  Forall (λ b, length b = c) blocks →
  (i < length blocks)%nat → (j < c)%nat →
  mjoin blocks !!! (i * c + j)%nat = (blocks !!! i) !!! j.
Proof.
  intros Hall. revert i.
  induction Hall as [|b blocks Hb _ IH]; intros i Hi Hj; [simpl in Hi; lia|].
  change (mjoin (b :: blocks)) with (b ++ mjoin blocks).
  destruct i as [|i].
  - by rewrite lookup_total_app_l by (simpl; lia).
  - rewrite lookup_total_app_r by (simpl; lia).
    replace (S i * c + j - length b)%nat with (i * c + j)%nat by (simpl; lia).
    apply IH; [simpl in Hi; lia|done].
Qed.

(** The tape model loses no behaviour of the generator: every matrix of
    in-range draws is what [randint] returns under some tape. *)
Lemma randint_reaches high rows (cols : nat) (blocks : list (list Z)) h d :
  0 < high → length blocks = rows →
  Forall (λ b, length b = cols ∧ Forall (λ s, 0 ≤ s < high) b) blocks →
  ∃ t, (randint high rows (Z.of_nat cols) (World h t d)).1 = Ok blocks.
Proof.
  intros Hh Hrows Hall.
  exists (λ i, mjoin blocks !!! (i - d)%nat). unfold randint.
  destruct (Z.leb_spec high 0); [lia|].
  destruct (Z.ltb_spec (Z.of_nat cols) 0); [lia|]. simpl. f_equal.
  rewrite Nat2Z.id.
  assert (Forall (λ b, length b = cols) blocks) as Hlen
    by (eapply Forall_impl; [exact Hall|]; by intros b [? _]).
  apply (list_eq_same_length _ _ rows); [done|by rewrite length_fmap, length_seq|].
  intros i r b Hi Hr Hb. rewrite list_lookup_fmap, lookup_seq_lt in Hr by done.
  injection Hr as <-. rewrite Forall_forall in Hall.
  destruct (Hall b) as [Hbl Hbs]; [by eapply list_elem_of_lookup_2|].
  apply (list_eq_same_length _ _ cols); [done|by rewrite length_fmap, length_seq|].
  intros j x s Hj Hx Hs. rewrite list_lookup_fmap, lookup_seq_lt in Hx by done.
  injection Hx as <-. simpl.
  replace (d + i * cols + j - d)%nat with (i * cols + j)%nat by lia.
  rewrite join_lookup_total by (done || lia).
  rewrite (list_lookup_total_correct _ _ _ Hb).
  rewrite (list_lookup_total_correct _ _ _ Hs).
  apply Z.mod_small. rewrite Forall_forall in Hbs. apply Hbs.
  by eapply list_elem_of_lookup_2.
Qed.

(** Column-major flattening visits the blocks one after the other. *)
Lemma join_columns (block : list Z) (f : Z → list Z) :
  mjoin ((λ j, f (block !!! j)) <$> seq 0 (length block)) = block ≫= f.
Proof.
  induction block as [|s block IH]; [reflexivity|].
  simpl. f_equal. rewrite <- fmap_S_seq, <- list_fmap_compose. exact IH.
Qed.

Lemma expand_block_blocks l block :
  expand_block l block = block ≫= (λ s, (λ ii, s + ii) <$> seqZ 0 l).
Proof.
  unfold expand_block, flatten_F.
  destruct (decide (0 < l)) as [Hl|Hl].
  - set (rows := (λ ii, (λ s, s + ii) <$> block) <$> seqZ 0 l).
    assert (match rows with [] => 0%nat | r :: _ => length r end
            = length block) as ->.
    { subst rows. rewrite seqZ_cons by done. simpl. apply length_fmap. }
    subst rows. rewrite <- (join_columns block). f_equal.
    apply list_fmap_ext. intros i j [-> Hj]%lookup_seq. simpl.
    rewrite <- list_fmap_compose. apply list_fmap_ext. intros k ii _. simpl.
    by rewrite (list_lookup_total_fmap (λ s, s + ii) block i Hj).
  - rewrite seqZ_nil by lia. simpl.
    induction block as [|s block IH]; [reflexivity|]. simpl. exact IH.
Qed.

(** One start after [circ]: it stays, or moves back by a whole axis, and
    the block that begins there ends before the axis does. *)
Lemma circ_start l n s :
  1 ≤ l ≤ n → 0 ≤ s < n →
  let c := if n - s <? l then s - n else s in
  - l < c ∧ c + l ≤ n ∧ (c = s ∨ c = s - n).
Proof. intros Hl Hs. simpl. destruct (Z.ltb_spec (n - s) l); lia. Qed.

Lemma ceil_div_run n l w :
  1 ≤ l → ceil_div n l w = (Ok (- ((- n) `div` l)), w).
Proof. intros Hl. unfold ceil_div. destruct (Z.eqb_spec l 0); [lia|done]. Qed.

Lemma ceil_div_covers n l :
  1 ≤ l → 0 ≤ n → 0 ≤ - ((- n) `div` l) ∧ n ≤ - ((- n) `div` l) * l.
Proof.
  intros Hl Hn.
  pose proof (Z.div_mod (- n) l ltac:(lia)).
  pose proof (Z.mod_pos_bound (- n) l ltac:(lia)).
  assert ((- n) `div` l ≤ 0) by (apply Z.div_le_upper_bound; lia).
  nia.
Qed.

(** The run of the circular method, in terms of the drawn starts. *)
Lemma bootstrap_ts_indexes_run {T} (data : list T) l n_samples w :
  let n := Z.of_nat (length data) in
  let N := - ((- n) `div` l) in
  1 ≤ l ≤ n →
  ∃ blocks w',
    randint n n_samples N w = (Ok blocks, w') ∧
    bootstrap_ts_indexes data l n_samples "circular" w
      = (Ok ((λ b, take (length data) (expand_block l b))
               <$> circ blocks l n), w') ∧
    heap w' = heap w ∧
    length blocks = n_samples ∧
    Forall (λ b, length b = Z.to_nat N ∧ Forall (λ s, 0 ≤ s < n) b) blocks.
Proof.
  intros n N Hl.
  destruct (ceil_div_covers n l) as [HN _]; [lia..|].
  destruct (randint_run n n_samples N w) as (blocks & w' & Hr & Hh & Hlen & Hb);
    [lia..|].
  exists blocks, w'. repeat split; try done.
  unfold bootstrap_ts_indexes. simpl.
  unfold mbind, M_bind, bind. rewrite ceil_div_run by lia.
  fold n N. rewrite Hr. simpl. unfold ret.
  by rewrite <- list_fmap_compose.
Qed.

Lemma length_bind_const {A B} (f : A → list B) (k : nat) (xs : list A) :
  (∀ x, length (f x) = k) → length (xs ≫= f) = (length xs * k)%nat.
Proof.
  intros Hf. induction xs as [|x xs IH]; [reflexivity|].
  rewrite bind_cons, length_app, Hf, IH. simpl. lia.
Qed.

(** Every row has the length of the series, and every entry lies strictly
    between [-l] and [n]. *)
Lemma bootstrap_ts_indexes_rows {T} (data : list T) l n_samples w :
  1 ≤ l ≤ Z.of_nat (length data) →
  ∃ indexes w',
    bootstrap_ts_indexes data l n_samples "circular" w = (Ok indexes, w') ∧
    heap w' = heap w ∧
    length indexes = n_samples ∧
    Forall (λ row, length row = length data ∧
                   Forall (λ e, - l < e < Z.of_nat (length data)) row) indexes.
Proof.
  intros Hl. set (n := Z.of_nat (length data)) in *.
  destruct (bootstrap_ts_indexes_run data l n_samples w Hl)
    as (blocks & w' & _ & Hrun & Hheap & Hlen & Hb).
  destruct (ceil_div_covers n l) as [HN Hcov]; [lia..|].
  eexists _, w'. split; [exact Hrun|]. split; [exact Hheap|].
  split; [by unfold circ; rewrite !length_fmap|].
  unfold circ. rewrite <- list_fmap_compose.
  apply Forall_fmap. eapply Forall_impl; [exact Hb|].
  intros b [Hbl Hbs]. simpl. rewrite expand_block_blocks. split.
  - rewrite length_take_le; [done|].
    rewrite (length_bind_const _ (Z.to_nat l)).
    + rewrite length_fmap, Hbl. fold n. nia.
    + intros s. by rewrite length_fmap, length_seqZ.
  - apply Forall_take, Forall_bind, Forall_fmap.
    eapply Forall_impl; [exact Hbs|]. intros s Hs. simpl.
    apply Forall_fmap, Forall_forall. intros ii Hii%elem_of_seqZ. simpl.
    pose proof (circ_start l n s Hl Hs) as Hc. simpl in Hc. subst n.
    destruct (Z.ltb_spec (Z.of_nat (length data) - s) l); lia.
Qed.

(** C9.  With the circular method, [n >= 1] points and a block length
    [1 <= l <= n], the call returns [n_samples] rows and every entry [e] of
    them satisfies [-(l-1) <= e <= n-1]; hence [e mod n] is a time index of
    an axis of length [n]. *)
Theorem circular_entries_between {T} (data : list T) l n_samples w :
  1 ≤ l ≤ Z.of_nat (length data) →
  ∃ indexes w',
    bootstrap_ts_indexes data l n_samples "circular" w = (Ok indexes, w') ∧
    length indexes = n_samples ∧
    ∀ row e, row ∈ indexes → e ∈ row →
      - (l - 1) ≤ e ≤ Z.of_nat (length data) - 1 ∧
      0 ≤ e `mod` Z.of_nat (length data) < Z.of_nat (length data).
Proof.
  intros Hl.
  destruct (bootstrap_ts_indexes_rows data l n_samples w Hl)
    as (indexes & w' & Hrun & _ & Hlen & Hrows).
  exists indexes, w'. split; [exact Hrun|]. split; [exact Hlen|].
  intros row e Hrow He.
  rewrite Forall_forall in Hrows. destruct (Hrows row Hrow) as [_ Hes].
  rewrite Forall_forall in Hes. specialize (Hes e He).
  split; [lia|]. apply Z.mod_pos_bound. lia.
Qed.

Lemma circular_entries_between_witness :
  1 ≤ 4 ≤ Z.of_nat (length (replicate 12 ())) ∧
  ∃ indexes w',
    bootstrap_ts_indexes (replicate 12 ()) 4 2 "circular"
      (world_of_draws [10; 3; 7; 22; 9; 8]) = (Ok indexes, w') ∧
    length indexes = 2%nat ∧
    ∀ row e, row ∈ indexes → e ∈ row →
      - (4 - 1) ≤ e ≤ Z.of_nat (length (replicate 12 ())) - 1 ∧
      0 ≤ e `mod` Z.of_nat (length (replicate 12 ()))
        < Z.of_nat (length (replicate 12 ())).
Proof.
  assert (1 ≤ 4 ≤ Z.of_nat (length (replicate 12 ()))) as H by (simpl; lia).
  split; [exact H|].
  exact (circular_entries_between (replicate 12 ()) 4 2
           (world_of_draws [10; 3; 7; 22; 9; 8]) H).
Defined.

(** C1, as the code has it.  The entries are not all in [[0, n)]: a block
    that wraps is written with negative indexes.  Every row has [n]
    entries, and the place numpy reads for each entry (the entry itself,
    or the entry plus [n] when it is negative) lies in [[0, n)]. *)
Theorem circular_entries_resolve {T} (data : list T) l n_samples w :
  1 ≤ l ≤ Z.of_nat (length data) →
  ∃ indexes w',
    bootstrap_ts_indexes data l n_samples "circular" w = (Ok indexes, w') ∧
    length indexes = n_samples ∧
    ∀ row, row ∈ indexes →
      length row = length data ∧
      ∀ e, e ∈ row →
        0 ≤ position (Z.of_nat (length data)) e < Z.of_nat (length data).
Proof.
  intros Hl.
  destruct (bootstrap_ts_indexes_rows data l n_samples w Hl)
    as (indexes & w' & Hrun & _ & Hlen & Hrows).
  exists indexes, w'. split; [exact Hrun|]. split; [exact Hlen|].
  intros row Hrow.
  rewrite Forall_forall in Hrows. destruct (Hrows row Hrow) as [Hrl Hes].
  split; [exact Hrl|]. intros e He.
  rewrite Forall_forall in Hes. specialize (Hes e He).
  unfold position. destruct (Z.ltb_spec e 0); lia.
Qed.

Lemma circular_entries_resolve_witness :
  1 ≤ 4 ≤ Z.of_nat (length (replicate 12 ())) ∧
  ∃ indexes w',
    bootstrap_ts_indexes (replicate 12 ()) 4 1 "circular"
      (world_of_draws [10; 3; 7]) = (Ok indexes, w') ∧
    length indexes = 1%nat ∧
    ∀ row, row ∈ indexes →
      length row = length (replicate 12 ()) ∧
      ∀ e, e ∈ row →
        0 ≤ position (Z.of_nat (length (replicate 12 ()))) e
          < Z.of_nat (length (replicate 12 ())).
Proof.
  assert (1 ≤ 4 ≤ Z.of_nat (length (replicate 12 ()))) as H by (simpl; lia).
  split; [exact H|].
  exact (circular_entries_resolve (replicate 12 ()) 4 1
           (world_of_draws [10; 3; 7]) H).
Defined.

(** C1 as stated fails: for [n = 12], [l = 4] and a first start of 10 the
    returned row begins with [-2], which is not in [[0, 12)]. *)
Lemma circular_entry_negative :
  ∃ w',
    bootstrap_ts_indexes (replicate 12 ()) 4 1 "circular"
      (world_of_draws [10; 3; 7])
    = (Ok [[-2; -1; 0; 1; 3; 4; 5; 6; 7; 8; 9; 10]], w') ∧
    ¬ (0 ≤ -2 < 12).
Proof. eexists. split; [vm_compute; reflexivity|lia]. Qed.

(** C5, as the code has it.  For [n = 12], [l = 4], one replicate and a
    first drawn start of 10, the row has exactly 12 entries; its first four
    are [-2, -1, 0, 1], which numpy reads at the places [10, 11, 0, 1]. *)
Theorem scenario_first_block {T} (data : list T) (w : world) :
  length data = 12%nat →
  tape w (drawn w) `mod` 12 = 10 →
  ∃ row w',
    bootstrap_ts_indexes data 4 1 "circular" w = (Ok [row], w') ∧
    length row = 12%nat ∧
    take 4 row = [-2; -1; 0; 1] ∧
    position 12 <$> take 4 row = [10; 11; 0; 1].
Proof.
  intros Hd H0.
  unfold bootstrap_ts_indexes, mbind, M_bind, bind, ceil_div, randint, ret.
  rewrite Hd. change (Z.of_nat 12) with 12.
  change (Z.opp (Z.div (Z.opp 12) 4)) with 3. cbn -[Z.modulo].
  eexists _, _. split; [reflexivity|].
  rewrite expand_block_blocks.
  change (Z.to_nat 3) with 3%nat. change (seqZ 0 4) with [0; 1; 2; 3].
  cbn -[Z.modulo]. rewrite !Nat.add_0_r, H0.
  repeat split; reflexivity.
Qed.

Lemma scenario_first_block_witness :
  length (replicate 12 ()) = 12%nat ∧
  tape (world_of_draws [10; 3; 7]) (drawn (world_of_draws [10; 3; 7]))
    `mod` 12 = 10 ∧
  ∃ row w',
    bootstrap_ts_indexes (replicate 12 ()) 4 1 "circular"
      (world_of_draws [10; 3; 7]) = (Ok [row], w') ∧
    length row = 12%nat ∧
    take 4 row = [-2; -1; 0; 1] ∧
    position 12 <$> take 4 row = [10; 11; 0; 1].
Proof.
  split; [reflexivity|]. split; [reflexivity|].
  apply (scenario_first_block (replicate 12 ()) (world_of_draws [10; 3; 7]));
    reflexivity.
Defined.

(** C5 as stated fails: with the first start equal to 10 the first four
    entries of the row are not [10, 11, 0, 1]. *)
Lemma scenario_first_block_not_modular :
  ¬ (∀ w : world,
       tape w (drawn w) `mod` 12 = 10 →
       ∃ row w',
         bootstrap_ts_indexes (replicate 12 ()) 4 1 "circular" w
           = (Ok [row], w') ∧
         length row = 12%nat ∧
         take 4 row = [10; 11; 0; 1]).
Proof.
  intros H.
  destruct (H (world_of_draws [10; 3; 7]) eq_refl) as (row & w' & Hrun & _ & Hf).
  vm_compute in Hrun. injection Hrun as <- _. discriminate Hf.
Qed.

(** C6, as the code has it.  With [l = n] every row is one block over the
    whole series: there is an offset [s] in [[0, n)] such that entry [i] is
    [s + i] when [s = 0] and [s + i - n] otherwise, so that it agrees with
    [(s + i) mod n] modulo [n], the place numpy reads. *)
Theorem whole_series_rotation {T} (data : list T) n_samples w :
  1 ≤ Z.of_nat (length data) →
  ∃ indexes w',
    bootstrap_ts_indexes data (Z.of_nat (length data)) n_samples "circular" w
      = (Ok indexes, w') ∧
    length indexes = n_samples ∧
    ∀ row, row ∈ indexes →
      ∃ s, 0 ≤ s < Z.of_nat (length data) ∧
           length row = length data ∧
           ∀ i, (i < length data)%nat →
             ∃ e, row !! i = Some e ∧
                  e = (if s =? 0 then 0 else s - Z.of_nat (length data))
                      + Z.of_nat i ∧
                  e `mod` Z.of_nat (length data)
                    = (s + Z.of_nat i) `mod` Z.of_nat (length data).
Proof.
  intros Hn. set (n := Z.of_nat (length data)) in *.
  destruct (bootstrap_ts_indexes_run data n n_samples w)
    as (blocks & w' & _ & Hrun & _ & Hlen & Hb); [fold n; lia|].
  fold n in Hrun, Hb.
  replace (- ((- n) `div` n)) with 1 in Hb
    by (replace (- n) with ((-1) * n) by lia; rewrite Z.div_mul; lia).
  eexists _, w'. split; [exact Hrun|].
  split; [by unfold circ; rewrite !length_fmap|].
  intros row Hrow. unfold circ in Hrow.
  apply list_elem_of_fmap in Hrow as (b' & -> & Hb').
  apply list_elem_of_fmap in Hb' as (b & -> & Hbin).
  rewrite Forall_forall in Hb. destruct (Hb b Hbin) as [Hbl Hbs].
  destruct b as [|s [|? ?]]; try discriminate Hbl.
  apply Forall_inv in Hbs. exists s. split; [exact Hbs|].
  rewrite expand_block_blocks. simpl. rewrite app_nil_r.
  assert (length (seqZ 0 n) = length data) as Hseq
    by (rewrite length_seqZ; subst n; lia).
  split; [by rewrite length_take_le by (rewrite length_fmap; lia)|].
  intros i Hi. eexists. split.
  - rewrite lookup_take_lt by done. rewrite list_lookup_fmap.
    rewrite lookup_seqZ_lt by (subst n; lia). reflexivity.
  - destruct (Z.ltb_spec (n - s) n), (Z.eqb_spec s 0); try lia.
    + split; [lia|].
      replace (s - n + (0 + Z.of_nat i)) with (s + Z.of_nat i + (-1) * n) by lia.
      apply Z.mod_add. lia.
    + split; [lia|]. f_equal; lia.
Qed.

Lemma whole_series_rotation_witness :
  1 ≤ Z.of_nat (length (replicate 3 ())) ∧
  ∃ indexes w',
    bootstrap_ts_indexes (replicate 3 ()) (Z.of_nat (length (replicate 3 ())))
      2 "circular" (world_of_draws [1; 0]) = (Ok indexes, w') ∧
    length indexes = 2%nat ∧
    ∀ row, row ∈ indexes →
      ∃ s, 0 ≤ s < Z.of_nat (length (replicate 3 ())) ∧
           length row = length (replicate 3 ()) ∧
           ∀ i, (i < length (replicate 3 ()))%nat →
             ∃ e, row !! i = Some e ∧
                  e = (if s =? 0 then 0
                       else s - Z.of_nat (length (replicate 3 ())))
                      + Z.of_nat i ∧
                  e `mod` Z.of_nat (length (replicate 3 ()))
                    = (s + Z.of_nat i) `mod` Z.of_nat (length (replicate 3 ())).
Proof.
  assert (1 ≤ Z.of_nat (length (replicate 3 ()))) as H by (simpl; lia).
  split; [exact H|].
  exact (whole_series_rotation (replicate 3 ()) 2 (world_of_draws [1; 0]) H).
Defined.

(** C6 as stated fails: for [n = l = 3] and the start 1 the row is
    [-2, -1, 0], and no offset [s] makes its entries equal to
    [(s + i) mod 3], which is never negative. *)
Lemma whole_series_row_not_modular :
  ∃ w',
    bootstrap_ts_indexes (replicate 3 ()) 3 1 "circular" (world_of_draws [1])
      = (Ok [[-2; -1; 0]], w') ∧
    ¬ (∃ s, 0 ≤ s < 3 ∧
            ∀ i e, [-2; -1; 0] !! i = Some e → e = (s + Z.of_nat i) `mod` 3).
Proof.
  eexists. split; [vm_compute; reflexivity|].
  intros (s & Hs & H). specialize (H 0%nat (-2) eq_refl).
  pose proof (Z.mod_pos_bound (s + Z.of_nat 0) 3 ltac:(lia)). lia.
Qed.

(** C2.  Every method other than ['circular'] does end in an exception and
    returns nothing, but the exception is the interpreter's
    [UnboundLocalError] for the name [indexes] at the [return] statement,
    not an error raised for the unsupported method. *)
Theorem other_method_unbound {T} (data : list T) l n_samples method w :
  method ≠ "circular" →
  bootstrap_ts_indexes data l n_samples method w = (Raise UnboundLocalError, w).
Proof.
  intros Hm. unfold bootstrap_ts_indexes.
  destruct (String.eqb_spec method "circular") as [E|E]; [done|].
  reflexivity.
Qed.

Lemma other_method_unbound_witness :
  "stationary" ≠ "circular" ∧
  bootstrap_ts_indexes (replicate 12 ()) 4 1 "stationary"
    (world_of_draws [10; 3; 7])
  = (Raise UnboundLocalError, world_of_draws [10; 3; 7]).
Proof.
  assert ("stationary" ≠ "circular") as H by discriminate.
  split; [exact H|].
  exact (other_method_unbound (replicate 12 ()) 4 1 "stationary"
           (world_of_draws [10; 3; 7]) H).
Defined.

(** ** The block-length selector *)

Lemma for_each_Forall2 {A B} (f : A → result B) xs ys :
  for_each f xs = Ok ys → Forall2 (λ x y, f x = Ok y) xs ys.
Proof.
  revert ys. induction xs as [|x xs IH]; intros ys H; simpl in H.
  - injection H as <-. constructor.
  - unfold mbind, result_bind in H.
    destruct (f x) as [y|] eqn:Hx; [|discriminate].
    destruct (for_each f xs) as [ys'|] eqn:Hxs; [|discriminate].
    injection H as <-. constructor; [exact Hx|]. by apply IH.
Qed.

Lemma Forall2_for_each {A B} (f : A → result B) xs ys :
  Forall2 (λ x y, f x = Ok y) xs ys → for_each f xs = Ok ys.
Proof.
  induction 1 as [|x y xs ys Hx _ IH]; [reflexivity|].
  simpl. unfold mbind, result_bind. by rewrite Hx, IH.
Qed.

Lemma rint_Z (z : Z) : rint (inject_Z z) = z.
Proof.
  unfold rint. rewrite Qfloor_Z.
  assert ((inject_Z z - inject_Z z ?= 1 # 2)%Q = Lt) as ->; [|reflexivity].
  apply (proj1 (Qlt_alt _ _)). unfold Qlt. simpl. lia.
Qed.

(** Rounding stays between whole bounds. *)
Lemma rint_between (q : Q) (lo hi : Z) :
  (inject_Z lo <= q)%Q → (q <= inject_Z hi)%Q → lo ≤ rint q ≤ hi.
Proof.
  intros Hlo Hhi.
  pose proof (Qfloor_resp_le _ _ Hlo) as Hf1. rewrite Qfloor_Z in Hf1.
  pose proof (Qfloor_resp_le _ _ Hhi) as Hf2. rewrite Qfloor_Z in Hf2.
  assert ((inject_Z (Qfloor q) < q)%Q → Qfloor q < hi) as Hup.
  { intros Hlt. rewrite Zlt_Qlt. eapply Qlt_le_trans; eauto. }
  unfold rint.
  destruct (Qcompare_spec (q - inject_Z (Qfloor q)) (1 # 2)) as [He|Hl|Hg].
  - assert (inject_Z (Qfloor q) < q)%Q as Hlt.
    { apply (proj2 (Qlt_minus_iff _ _)). fold (q - inject_Z (Qfloor q))%Q.
      rewrite He. reflexivity. }
    specialize (Hup Hlt). destruct (Z.even (Qfloor q)); lia.
  - lia.
  - assert (inject_Z (Qfloor q) < q)%Q as Hlt.
    { apply (proj2 (Qlt_minus_iff _ _)). fold (q - inject_Z (Qfloor q))%Q.
      eapply Qlt_trans; [|exact Hg]. reflexivity. }
    specialize (Hup Hlt). lia.
Qed.

(** One component through the three statements under [if round:]. *)
Lemma clamp_round_component (bmax : Z) (b : npfloat) :
  1 ≤ bmax →
  let b1 := if fgt b (Fin (inject_Z bmax)) then Fin (inject_Z bmax) else b in
  let b2 := if flt b1 (Fin 1) then Fin 1 else b1 in
  fround b2 = NaN ∨ ∃ z : Z, fround b2 = Fin (inject_Z z) ∧ 1 ≤ z ≤ bmax.
Proof.
  intros Hb. assert (inject_Z 1 <= inject_Z bmax)%Q as HbQ
    by (by rewrite <- Zle_Qle).
  destruct b as [| |q|]; simpl.
  - by left.
  - right. exists 1. split; [reflexivity|lia].
  - right. unfold fgt. simpl.
    destruct (Qlt_le_dec (inject_Z bmax) q) as [Hgt|Hle]; simpl.
    + destruct (Qlt_le_dec (inject_Z bmax) 1) as [Hlt|_]; simpl.
      * exfalso. apply (Qlt_not_le _ _ Hlt). exact HbQ.
      * exists bmax. split; [by rewrite rint_Z|lia].
    + destruct (Qlt_le_dec q 1) as [Hlt|Hge]; simpl.
      * exists 1. split; [reflexivity|lia].
      * eexists. split; [reflexivity|]. by apply rint_between.
  - right. unfold fgt. simpl.
    destruct (Qlt_le_dec (inject_Z bmax) 1) as [Hlt|_]; simpl.
    + exfalso. apply (Qlt_not_le _ _ Hlt). exact HbQ.
    + exists bmax. split; [by rewrite rint_Z|lia].
Qed.

Lemma b_star_inv acf block_estimate data Kn mmax Bmax rho_k_crit round B :
  b_star acf block_estimate data Kn mmax Bmax rho_k_crit round = Ok B →
  ∃ columns BstarCB,
    (data = Array1 (default [] (head columns)) ∧ length columns = 1%nat
     ∨ data = Array2 columns) ∧
    Forall2 (λ x b, ∃ M, block_estimate x M = Ok b) columns BstarCB ∧
    B = if round then clamp_round Bmax BstarCB else BstarCB.
Proof.
  unfold b_star, mbind, result_bind. intros H.
  destruct data as [x|columns|ndim].
  - destruct (for_each _ [x]) as [raw|] eqn:Hraw; [|discriminate].
    injection H as <-. exists [x], raw. split; [by left|]. split; [|done].
    apply for_each_Forall2 in Hraw. eapply Forall2_impl; [exact Hraw|].
    simpl. intros y b Hy.
    destruct (mhat_of _ _ _ _) as [mhat|]; [|discriminate].
    destruct (select_M _ _) as [M|]; [|discriminate].
    by exists M.
  - destruct (for_each _ columns) as [raw|] eqn:Hraw; [|discriminate].
    injection H as <-. exists columns, raw. split; [by right|]. split; [|done].
    apply for_each_Forall2 in Hraw. eapply Forall2_impl; [exact Hraw|].
    simpl. intros y b Hy.
    destruct (mhat_of _ _ _ _) as [mhat|]; [|discriminate].
    destruct (select_M _ _) as [M|]; [|discriminate].
    by exists M.
  - destruct (2 <? ndim)%nat; discriminate.
Qed.

(** C3, as the code has it.  The clamp sits inside [if round:].  With
    [round=True] and a whole [Bmax >= 1] (as the default is), every
    component of the returned vector that is not NaN is a whole number in
    [[1, Bmax]].  With [round=False] the vector holds the estimates as the
    loop computed them, neither clamped nor rounded. *)
Theorem b_star_clamped_when_rounding
    acf block_estimate data Kn mmax (bmax : Z) rho_k_crit :
  1 ≤ bmax →
  (∀ B, b_star acf block_estimate data Kn mmax (Fin (inject_Z bmax))
               rho_k_crit true = Ok B →
        ∀ b, b ∈ B →
          b = NaN ∨ ∃ z : Z, b = Fin (inject_Z z) ∧ 1 ≤ z ≤ bmax) ∧
  (∀ B, b_star acf block_estimate data Kn mmax (Fin (inject_Z bmax))
               rho_k_crit false = Ok B →
        ∀ b, b ∈ B → ∃ x M, block_estimate x M = Ok b).
Proof.
  intros Hb. split; intros B HB b Hin.
  - apply b_star_inv in HB as (columns & raw & _ & _ & ->).
    unfold clamp_round in Hin. rewrite <- !list_fmap_compose in Hin.
    apply list_elem_of_fmap in Hin as (b0 & -> & _). simpl.
    by apply clamp_round_component.
  - apply b_star_inv in HB as (columns & raw & _ & Hraw & ->).
    apply list_elem_of_lookup in Hin as [i Hi].
    destruct (Forall2_lookup_r _ _ _ _ _ Hraw Hi) as (x & _ & M & HM).
    by exists x, M.
Qed.

Lemma b_star_clamped_when_rounding_witness :
  1 ≤ 3 ∧
  b_star acf_short_pulse estimate_short_pulse (Array1 short_pulse) 5 8
         (Fin (inject_Z 3)) (Fin (6585 # 10000)) true = Ok [Fin (inject_Z 1)] ∧
  (∀ b, b ∈ [Fin (inject_Z 1)] →
     b = NaN ∨ ∃ z : Z, b = Fin (inject_Z z) ∧ 1 ≤ z ≤ 3).
Proof.
  assert (1 ≤ 3) as H by lia.
  split; [exact H|]. split; [reflexivity|].
  exact (proj1 (b_star_clamped_when_rounding acf_short_pulse
                  estimate_short_pulse (Array1 short_pulse) 5 8 3
                  (Fin (6585 # 10000)) H) [Fin (inject_Z 1)] eq_refl).
Defined.

(** C3 as stated fails for [round=False]: on the series
    [1, 0, -1, 0, 0, 0, 0, 0] with the default [Kn = 5], [mmax = 8] and
    [Bmax = 3] the estimate [0.0] is returned as it is, below 1. *)
Lemma b_star_unclamped_without_rounding :
  b_star acf_short_pulse estimate_short_pulse (Array1 short_pulse) 5 8
         (Fin 3) (Fin (6585 # 10000)) false = Ok [Fin 0] ∧
  flt (Fin 0) (Fin 1) = true.
Proof. split; reflexivity. Qed.

(** The first true position of a mask. *)
Lemma nonzero_from_first (mask : list bool) (i : nat) :
  np_any mask = true →
  ∃ j rest,
    nonzero_from i mask = (i + j)%nat :: rest ∧
    mask !! j = Some true ∧
    ∀ k, (k < j)%nat → mask !! k = Some false.
Proof.
  revert i. induction mask as [|b mask IH]; intros i H; [discriminate|].
  destruct b; simpl.
  - exists 0%nat, (nonzero_from (S i) mask).
    split; [by rewrite Nat.add_0_r|]. split; [done|]. lia.
  - destruct (IH (S i) H) as (j & rest & Hnz & Hj & Hbefore).
    exists (S j), rest. split; [by rewrite Hnz, Nat.add_succ_r|].
    split; [done|]. intros [|k] Hk; [done|]. apply Hbefore. lia.
Qed.

(** The three branches of lines 50-56.  The first and the last are as
    intended; the middle one binds [mhat] to the whole array of significant
    lags, each plus one. *)
Lemma mhat_of_branches rho_k rho_k_crit Kn mmax :
  let insig := (λ r, flt (fabs r) rho_k_crit) <$> rho_k in
  let full := (λ jj, Nat.eqb (np_sum (take Kn (drop jj insig))) Kn)
                <$> seq 0 (mmax + 1 - Kn) in
  let sig := (λ r, fgt (fabs r) rho_k_crit) <$> rho_k in
  (np_any full = true →
     ∃ jj, mhat_of rho_k rho_k_crit Kn mmax = Ok (Scalar (Z.of_nat jj + 1)) ∧
           full !! jj = Some true ∧
           ∀ k, (k < jj)%nat → full !! k = Some false) ∧
  (np_any full = false → np_any sig = true →
     mhat_of rho_k rho_k_crit Kn mmax
     = Ok (Indexes ((λ i, Z.of_nat i + 1) <$> nonzero_from 0 sig))) ∧
  (np_any full = false → np_any sig = false →
     mhat_of rho_k rho_k_crit Kn mmax = Ok (Scalar 1)).
Proof.
  intros insig full sig.
  assert (mhat_of rho_k rho_k_crit Kn mmax
          = if np_any full then
              first ← item 0 (np_where full);
              jj ← item 0 first;
              Ok (Scalar (Z.of_nat jj + 1))
            else if np_any sig then
              found ← py_max (np_where sig);
              Ok (Indexes ((λ i, Z.of_nat i + 1) <$> found))
            else Ok (Scalar 1)) as ->.
  { unfold mhat_of, full, insig, sig. by rewrite <- list_fmap_compose. }
  repeat split.
  - intros Hany. rewrite Hany.
    destruct (nonzero_from_first full 0 Hany) as (j & rest & Hnz & Hj & Hk).
    exists j. split; [|done]. unfold np_where. simpl. by rewrite Hnz.
  - by intros -> ->.
  - by intros -> ->.
Qed.

(** C4, at an input where the middle branch runs.  On the alternating
    series of length 100 no window of [Kn = 5] lags is insignificant and all
    40 lags are significant.  [mhat] is then the array [1, ..., 40] and not
    the number 40, and [min(2*mhat, mmax)] on the next line raises. *)
Theorem mhat_is_array_of_significant_lags block_estimate :
  mhat_of (tail (acf_alternating alternating)) (Fin (2772 # 10000)) 5 15
    = Ok (Indexes (Z.of_nat <$> seq 1 40)) ∧
  select_M (Indexes (Z.of_nat <$> seq 1 40)) 15 = Raise ValueError ∧
  b_star acf_alternating block_estimate (Array1 alternating) 5 15
         (Fin 30) (Fin (2772 # 10000)) true = Raise ValueError.
Proof. repeat split; vm_compute; reflexivity. Qed.

(** ** The bootstrap runner *)

(** Drawing indexes leaves the object store alone, whatever happens. *)
Lemma bootstrap_ts_indexes_heap {T} (data : list T) l n_samples method w :
  heap (bootstrap_ts_indexes data l n_samples method w).2 = heap w.
Proof.
  unfold bootstrap_ts_indexes, mbind, M_bind, bind, ceil_div, randint, ret, raise.
  destruct (String.eqb method "circular"); [|reflexivity].
  destruct (l =? 0); [reflexivity|].
  destruct (_ || _); reflexivity.
Qed.

Lemma assign_value old v v' :
  assign old v = Ok v' →
  v' = v ∨ ∃ x r, old = Some r ∧ v = [x] ∧ v' = replicate (length r) x.
Proof.
  unfold assign. destruct old as [r|]; [|intros [= <-]; by left].
  destruct (length v =? length r)%nat; [intros [= <-]; by left|].
  destruct v as [|x [|? ?]]; try discriminate.
  intros [= <-]. right. by exists x, r.
Qed.

(** The loop of [ts_boot] from replicate [ii] on, started with the
    collection [b] stored at [out]: no other object changes and the
    generator is not used; when the loop ends normally the collection has
    kept its length and its slots before [ii], and slot [ii + i] holds the
    statistic of the members all gathered with row [i]. *)
Lemma ts_boot_loop_spec func dlist out indexes :
  ∀ ii w,
    let b := default [] (heap w !! out) in
    let '(res, w') := ts_boot_loop func dlist out ii indexes w in
    (∀ q, q ≠ out → heap w' !! q = heap w !! q) ∧
    tape w' = tape w ∧ drawn w' = drawn w ∧
    match res with
    | Raise _ => True
    | Ok _ =>
        let b' := default [] (heap w' !! out) in
        length b' = length b ∧
        (∀ k, (k < ii)%nat → b' !! k = b !! k) ∧
        ∀ i boot_indx, indexes !! i = Some boot_indx →
          ∃ sample old v,
            for_each (fancy_index boot_indx) dlist = Ok sample ∧
            b !! (ii + i)%nat = Some old ∧
            assign old (func sample) = Ok v ∧
            b' !! (ii + i)%nat = Some (Some v)
    end.
Proof.
  induction indexes as [|boot_indx indexes IH]; intros ii w; simpl.
  - unfold ret. repeat split; try done.
  - unfold mbind, M_bind, bind, lift.
    destruct (for_each (fancy_index boot_indx) dlist) as [sample|e] eqn:Hs;
      [|by repeat split].
    unfold setitem.
    destruct (default [] (heap w !! out) !! ii) as [old|] eqn:Hold;
      [|by repeat split].
    destruct (assign old (func sample)) as [v|e] eqn:Hv; [|by repeat split].
    set (b := default [] (heap w !! out)) in *.
    set (w1 := World _ _ _).
    specialize (IH (S ii) w1).
    assert (default [] (heap w1 !! out) = <[ii := Some v]> b) as Hb1
      by (subst w1; simpl; by rewrite lookup_insert_eq).
    rewrite Hb1 in IH.
    destruct (ts_boot_loop func dlist out (S ii) indexes w1) as [res w'].
    destruct IH as (Hframe & Htape & Hdrawn & Hres).
    split; [|split; [done|split; [done|]]].
    { intros q Hq. rewrite (Hframe q Hq). subst w1. simpl.
      by rewrite lookup_insert_ne. }
    destruct res as [[]|e]; [|done].
    destruct Hres as (Hlen & Hkeep & Hrows).
    apply lookup_lt_Some in Hold as Hii.
    split; [by rewrite Hlen, length_insert|]. split.
    { intros k Hk. rewrite Hkeep by lia. by rewrite list_lookup_insert_ne by lia. }
    intros [|i] row Hrow.
    + injection Hrow as <-. exists sample, old, v.
      rewrite Nat.add_0_r. repeat split; try done.
      rewrite Hkeep by lia. by rewrite list_lookup_insert_eq.
    + destruct (Hrows i row Hrow) as (sample' & old' & v' & ? & Hold' & ? & ?).
      exists sample', old', v'.
      rewrite list_lookup_insert_ne in Hold' by lia.
      replace (ii + S i)%nat with (S ii + i)%nat by lia. by repeat split.
Qed.

(** Objects that exist before the call, other than the collection handed
    in as [out], are the same after it, on every exit. *)
Lemma ts_boot_frame func dlist l n_samples method out indx_file w q :
  q ∈ dom (heap w) → out ≠ Some q →
  heap (ts_boot func dlist l n_samples method out indx_file w).2 !! q
  = heap w !! q.
Proof.
  intros Hq Hout. unfold ts_boot.
  destruct (negb _); [reflexivity|].
  unfold mbind, M_bind, bind, lift.
  destruct (item 0 dlist) as [example_tc|e]; [|reflexivity].
  set (start := match out with
                | Some p => ret p
                | None => alloc (replicate n_samples None)
                end w).
  assert (∃ p w1, start = (Ok p, w1) ∧ p ≠ q ∧ heap w1 !! q = heap w !! q)
    as (p & w1 & -> & Hp & H1).
  { subst start. destruct out as [p|].
    - exists p, w. repeat split; congruence.
    - eexists _, _. split; [reflexivity|].
      assert (fresh (dom (heap w)) ≠ q) as Hne
        by (intros <-; by apply (is_fresh (dom (heap w)))).
      split; [exact Hne|]. simpl. by rewrite lookup_insert_ne. }
  set (drawing := match indx_file with
                  | Some saved => ret saved
                  | None => bootstrap_ts_indexes example_tc l n_samples "circular"
                  end w1).
  assert (heap drawing.2 = heap w1) as H2.
  { subst drawing. destruct indx_file; [reflexivity|].
    apply bootstrap_ts_indexes_heap. }
  destruct drawing as [[indexes|e] w2]; simpl in H2; [|simpl; by rewrite H2].
  pose proof (ts_boot_loop_spec func dlist p indexes 0 w2) as Hloop.
  destruct (ts_boot_loop func dlist p 0 indexes w2) as [[[]|e] w3];
    destruct Hloop as (Hframe & _); simpl;
    by rewrite Hframe, H2 by done.
Qed.

Lemma same_length_unique (dlist : list timeseries) :
  length (remove_dups (length <$> dlist)) = 1%nat →
  ∀ d d', d ∈ dlist → d' ∈ dlist → length d = length d'.
Proof.
  intros H d d' Hd Hd'.
  destruct (remove_dups (length <$> dlist)) as [|n [|? ?]] eqn:E;
    try discriminate H.
  assert (∀ x, x ∈ dlist → length x = n) as Hall.
  { intros x Hx. apply (list_elem_of_fmap_2 length) in Hx.
    apply elem_of_remove_dups in Hx. rewrite E in Hx.
    by apply list_elem_of_singleton in Hx. }
  by rewrite (Hall d), (Hall d').
Qed.

Lemma remove_dups_const (n : nat) (ls : list nat) :
  Forall (λ x, x = n) ls → remove_dups (n :: ls) = [n].
Proof.
  induction ls as [|x ls IH]; intros H.
  - simpl. by destruct (decide_rel elem_of n []) as [?%elem_of_nil|].
  - apply Forall_cons in H as [-> H].
    change (remove_dups (n :: n :: ls))
      with (if decide_rel elem_of n (n :: ls) then remove_dups (n :: ls)
            else n :: remove_dups (n :: ls)).
    destruct (decide_rel elem_of n (n :: ls)) as [_|Hn]; [by apply IH|].
    exfalso. apply Hn. left.
Qed.

Lemma unique_same_length (dlist : list timeseries) example_tc :
  head dlist = Some example_tc →
  Forall (λ d, length d = length example_tc) dlist →
  remove_dups (length <$> dlist) = [length example_tc].
Proof.
  intros Hhd Hall. destruct dlist as [|d dlist]; [discriminate|].
  injection Hhd as ->. apply Forall_cons in Hall as [_ Hall].
  rewrite fmap_cons. apply remove_dups_const. by apply Forall_fmap.
Qed.

Lemma for_each_ok {A B} (f : A → result B) xs :
  Forall (λ x, ∃ y, f x = Ok y) xs → ∃ ys, for_each f xs = Ok ys.
Proof.
  induction 1 as [|x xs [y Hy] _ [ys Hys]]; [by exists []|].
  exists (y :: ys). simpl. unfold mbind, result_bind. by rewrite Hy, Hys.
Qed.

(** An index in [[-n, n)] can be read from every series of length [n]. *)
Lemma take_index_ok (data : timeseries) (e : Z) :
  - Z.of_nat (length data) ≤ e < Z.of_nat (length data) →
  ∃ f, take_index data e = Ok f.
Proof.
  intros He. unfold take_index, position, item.
  destruct (Z.ltb_spec e 0).
  - destruct (Z.ltb_spec (e + Z.of_nat (length data)) 0); [lia|].
    destruct (Z.leb_spec (Z.of_nat (length data)) (e + Z.of_nat (length data)));
      [lia|]. simpl.
    destruct (lookup_lt_is_Some_2 data (Z.to_nat (e + Z.of_nat (length data))))
      as [f ->]; [lia|]. by exists f.
  - destruct (Z.ltb_spec e 0); [lia|].
    destruct (Z.leb_spec (Z.of_nat (length data)) e); [lia|]. simpl.
    destruct (lookup_lt_is_Some_2 data (Z.to_nat e)) as [f ->]; [lia|].
    by exists f.
Qed.

(** With valid index rows and empty slots ahead, the loop runs to its end. *)
Lemma ts_boot_loop_ok func dlist out (n : nat) indexes :
  Forall (λ d : timeseries, length d = n) dlist →
  Forall (Forall (λ e, - Z.of_nat n ≤ e < Z.of_nat n)) indexes →
  ∀ ii w,
    (∀ i, (i < length indexes)%nat →
          default [] (heap w !! out) !! (ii + i)%nat = Some None) →
    ∃ w', ts_boot_loop func dlist out ii indexes w = (Ok (), w').
Proof.
  intros Hd. induction 1 as [|boot_indx indexes Hrow _ IH]; intros ii w Hslots.
  - by exists w.
  - simpl. unfold mbind, M_bind, bind, lift.
    destruct (for_each_ok (fancy_index boot_indx) dlist) as [sample ->].
    { eapply Forall_impl; [exact Hd|]. intros d Hlen. simpl.
      apply for_each_ok. eapply Forall_impl; [exact Hrow|].
      intros e He. simpl. apply take_index_ok. by rewrite Hlen. }
    unfold setitem.
    pose proof (Hslots 0%nat ltac:(simpl; lia)) as H0.
    rewrite Nat.add_0_r in H0. rewrite H0. simpl.
    apply IH. intros i Hi. simpl. rewrite lookup_insert_eq. simpl.
    rewrite list_lookup_insert_ne by lia.
    replace (S (ii + i)) with (ii + S i)%nat by lia.
    apply Hslots. simpl. lia.
Qed.

(** What a normal return of [ts_boot] means. *)
Lemma ts_boot_spec func dlist l n_samples method out indx_file w res w' :
  ts_boot func dlist l n_samples method out indx_file w = (Ok res, w') →
  ∃ example_tc p w1 w2 indexes,
    head dlist = Some example_tc ∧
    (∀ d, d ∈ dlist → length d = length example_tc) ∧
    match out with
    | Some q => ret q
    | None => alloc (replicate n_samples None)
    end w = (Ok p, w1) ∧
    match indx_file with
    | Some saved => ret saved
    | None => bootstrap_ts_indexes example_tc l n_samples "circular"
    end w1 = (Ok indexes, w2) ∧
    length res = length (default [] (heap w1 !! p)) ∧
    ∀ i boot_indx, indexes !! i = Some boot_indx →
      ∃ sample old v,
        for_each (fancy_index boot_indx) dlist = Ok sample ∧
        default [] (heap w1 !! p) !! i = Some old ∧
        assign old (func sample) = Ok v ∧
        res !! i = Some (Some v).
Proof.
  unfold ts_boot.
  destruct (length (remove_dups (length <$> dlist)) =? 1)%nat eqn:Hassert;
    [|discriminate]. simpl.
  apply Nat.eqb_eq in Hassert.
  unfold mbind, M_bind, bind, lift, item.
  destruct (dlist !! 0%nat) as [example_tc|] eqn:Hhd; [|discriminate].
  destruct (match out with Some q => ret q | None => _ end w)
    as [[p|e] w1] eqn:Hstart; [|discriminate].
  destruct (match indx_file with Some saved => ret saved | None => _ end w1)
    as [[indexes|e] w2] eqn:Hdraw; [|discriminate].
  assert (heap w2 = heap w1) as Hheap.
  { destruct indx_file; [by injection Hdraw as _ <-|].
    pose proof (bootstrap_ts_indexes_heap example_tc l n_samples "circular" w1)
      as H. by rewrite Hdraw in H. }
  pose proof (ts_boot_loop_spec func dlist p indexes 0 w2) as Hloop.
  destruct (ts_boot_loop func dlist p 0 indexes w2) as [[[]|e] w3];
    [|discriminate].
  unfold contents. intros [= <- <-].
  destruct Hloop as (_ & _ & _ & Hlen & _ & Hrows). rewrite Hheap in *.
  exists example_tc, p, w1, w2, indexes.
  split; [by rewrite head_lookup|]. split.
  { intros d Hd. apply (same_length_unique dlist Hassert); [done|].
    by eapply list_elem_of_lookup_2. }
  repeat split; done.
Qed.

(** A read that succeeds had its index in [[-n, n)] and took the slice at
    [e mod n]. *)
Lemma take_index_inv (data : list (list npfloat)) (e : Z) f :
  take_index data e = Ok f →
  - Z.of_nat (length data) ≤ e < Z.of_nat (length data) ∧
  data !! Z.to_nat (e `mod` Z.of_nat (length data)) = Some f.
Proof.
  unfold take_index, position, item. set (n := Z.of_nat (length data)).
  destruct (Z.ltb_spec e 0).
  - destruct (Z.ltb_spec (e + n) 0); [discriminate|].
    destruct (Z.leb_spec n (e + n)); [discriminate|]. simpl.
    assert (e `mod` n = e + n) as ->.
    { rewrite <- (Z.mod_add e 1 n) by lia.
      rewrite Z.mul_1_l. apply Z.mod_small. lia. }
    destruct (data !! Z.to_nat (e + n)) eqn:E; [|discriminate].
    intros [= <-]. split; [lia|done].
  - destruct (Z.ltb_spec e 0); [lia|].
    destruct (Z.leb_spec n e); [discriminate|]. simpl.
    rewrite Z.mod_small by lia.
    destruct (data !! Z.to_nat e) eqn:E; [|discriminate].
    intros [= <-]. split; [lia|done].
Qed.

(** What [data[..., boot_indx]] holds when it succeeds: one slice per
    index, every index in [[-n, n)], and slice [k] is the slice of [data]
    at [boot_indx[k] mod n]. *)
Lemma fancy_index_gathers (boot_indx : list Z) (data s : list (list npfloat)) :
  fancy_index boot_indx data = Ok s →
  length s = length boot_indx ∧
  Forall (λ e, - Z.of_nat (length data) ≤ e < Z.of_nat (length data))
         boot_indx ∧
  ∀ k e, boot_indx !! k = Some e →
    s !! k = data !! Z.to_nat (e `mod` Z.of_nat (length data)).
Proof.
  intros Hs. apply for_each_Forall2 in Hs.
  split; [symmetry; by eapply Forall2_length|]. split.
  - apply Forall_forall. intros e [k He]%list_elem_of_lookup.
    destruct (Forall2_lookup_l _ _ _ _ _ Hs He) as (f & _ & Ht).
    by apply take_index_inv in Ht as [? _].
  - intros k e He.
    destruct (Forall2_lookup_l _ _ _ _ _ Hs He) as (f & Hf & Ht).
    apply take_index_inv in Ht as [_ Ht]. by rewrite Hf, Ht.
Qed.

(** The same for a whole bundle whose members have [n] time points. *)
Lemma bundle_gathers (boot_indx : list Z) (dlist sample : list (list (list npfloat)))
    (n : nat) :
  (∀ d, d ∈ dlist → length d = n) →
  for_each (fancy_index boot_indx) dlist = Ok sample →
  Forall2 (λ data s,
             fancy_index boot_indx data = Ok s ∧
             length s = length boot_indx ∧
             ∀ k e, boot_indx !! k = Some e →
               s !! k = data !! Z.to_nat (e `mod` Z.of_nat n))
          dlist sample.
Proof.
  intros Hn Hs. apply for_each_Forall2 in Hs.
  assert (Forall (λ d : list (list npfloat), length d = n) dlist) as Hall
    by (by apply Forall_forall).
  clear Hn. induction Hs as [|data s dlist sample Hds _ IH]; [constructor|].
  apply Forall_cons in Hall as [Hlen Hall].
  constructor; [|by apply IH].
  destruct (fancy_index_gathers _ _ _ Hds) as (Hl & _ & Hk).
  rewrite Hlen in Hk. by repeat split.
Qed.

(** C7.  Whenever [ts_boot] returns, whatever the index source and the
    output collection, all members of the bundle have one time-axis length
    [n], and the result of replicate [i] is the statistic of one sample in
    which every member was gathered with the same index row [i]: every
    entry of the row lies in [[-n, n)], the resampled member has one slice
    per entry of the row, and its slice [k] is that member's own slice at
    the time point [row_i[k] mod n], the same time point for all members.
    (The statistic is stored as it is, or repeated across the row when a
    single number goes into a row of a float array.)  For a bundle whose
    members share the time-axis length [n >= 1] and [1 <= l <= n], the
    default call does return, with one such result per replicate, from
    index rows of [n] entries. *)
Theorem ts_boot_same_index_row func dlist l n_samples method :
  (∀ out indx_file w res w',
     ts_boot func dlist l n_samples method out indx_file w = (Ok res, w') →
     ∃ indexes (n : nat),
       dlist ≠ [] ∧ (∀ d, d ∈ dlist → length d = n) ∧
       match indx_file with
       | Some saved => indexes = saved
       | None => ∃ example_tc w1 w2,
           head dlist = Some example_tc ∧
           bootstrap_ts_indexes example_tc l n_samples "circular" w1
             = (Ok indexes, w2)
       end ∧
       ∀ i boot_indx, indexes !! i = Some boot_indx →
         Forall (λ e, - Z.of_nat n ≤ e < Z.of_nat n) boot_indx ∧
         ∃ sample v,
           Forall2 (λ data s,
                      fancy_index boot_indx data = Ok s ∧
                      length s = length boot_indx ∧
                      ∀ k e, boot_indx !! k = Some e →
                        s !! k = data !! Z.to_nat (e `mod` Z.of_nat n))
                   dlist sample ∧
           res !! i = Some (Some v) ∧
           (v = func sample ∨ ∃ x k, func sample = [x] ∧ v = replicate k x)) ∧
  (∀ example_tc w,
     head dlist = Some example_tc →
     Forall (λ d, length d = length example_tc) dlist →
     1 ≤ l ≤ Z.of_nat (length example_tc) →
     ∃ indexes res w1 w2 w',
       tape w1 = tape w ∧ drawn w1 = drawn w ∧
       bootstrap_ts_indexes example_tc l n_samples "circular" w1
         = (Ok indexes, w2) ∧
       ts_boot func dlist l n_samples method None None w = (Ok res, w') ∧
       length indexes = n_samples ∧ length res = n_samples ∧
       ∀ i boot_indx, indexes !! i = Some boot_indx →
         length boot_indx = length example_tc ∧
         ∃ sample,
           Forall2 (λ data s,
                      fancy_index boot_indx data = Ok s ∧
                      length s = length boot_indx ∧
                      ∀ k e, boot_indx !! k = Some e →
                        s !! k
                        = data !! Z.to_nat
                                    (e `mod` Z.of_nat (length example_tc)))
                   dlist sample ∧
           res !! i = Some (Some (func sample))).
Proof.
  split.
  - intros out indx_file w res w' Hrun.
    apply ts_boot_spec in Hrun
      as (example_tc & p & w1 & w2 & indexes & Hhd & Hn & _ & Hdraw & _ & Hrows).
    exists indexes, (length example_tc).
    split; [by destruct dlist|]. split; [exact Hn|]. split.
    { destruct indx_file; [by injection Hdraw|]. by exists example_tc, w1, w2. }
    intros i boot_indx Hi.
    destruct (Hrows i boot_indx Hi) as (sample & old & v & Hs & _ & Hv & Hres).
    pose proof (bundle_gathers boot_indx dlist sample _ Hn Hs) as Hg.
    split.
    { destruct dlist as [|d dlist]; [discriminate|]. injection Hhd as ->.
      apply Forall2_cons_inv_l in Hg as (s & sample' & (Hd & _) & _ & _).
      by apply fancy_index_gathers in Hd as (_ & ? & _). }
    exists sample, v. split; [exact Hg|]. split; [done|].
    apply assign_value in Hv as [->|(x & r' & _ & -> & ->)]; [by left|].
    right. by exists x, (length r').
  - intros example_tc w Hhd Hall Hl.
    set (p := fresh (dom (heap w))).
    set (w1 := World (<[p := replicate n_samples None]> (heap w))
                     (tape w) (drawn w)).
    destruct (bootstrap_ts_indexes_rows example_tc l n_samples w1 Hl)
      as (indexes & w2 & Hdraw & Hheap & Hlen & Hrows).
    assert (default [] (heap w2 !! p) = replicate n_samples None) as Hb
      by (rewrite Hheap; subst w1; simpl; by rewrite lookup_insert_eq).
    destruct (ts_boot_loop_ok func dlist p (length example_tc) indexes Hall)
      with (ii := 0%nat) (w := w2) as [w3 Hloop].
    { eapply Forall_impl; [exact Hrows|]. intros row [_ Hes]. simpl.
      eapply Forall_impl; [exact Hes|]. simpl. lia. }
    { intros i Hi. rewrite Hb. simpl. apply lookup_replicate_2. lia. }
    pose proof (ts_boot_loop_spec func dlist p indexes 0 w2) as Hspec.
    rewrite Hloop, Hb in Hspec.
    destruct Hspec as (_ & _ & _ & Hlen' & _ & Hslots).
    exists indexes, (default [] (heap w3 !! p)), w1, w2, w3.
    split; [done|]. split; [done|]. split; [exact Hdraw|]. split.
    { unfold ts_boot. rewrite (unique_same_length dlist example_tc Hhd Hall).
      simpl. unfold mbind, M_bind, bind, lift, item.
      rewrite <- head_lookup, Hhd. unfold alloc. fold p.
      match goal with
      | |- context [bootstrap_ts_indexes ?a ?b ?c ?d ?e] =>
          replace (bootstrap_ts_indexes a b c d e) with (Ok indexes, w2)
            by (symmetry; exact Hdraw)
      end.
      by rewrite Hloop. }
    split; [exact Hlen|]. split; [by rewrite Hlen', length_replicate|].
    intros i boot_indx Hi.
    destruct (Hslots i boot_indx Hi) as (sample & old & v & Hs & Hold & Hv & Hres).
    split.
    { rewrite Forall_forall in Hrows.
      by destruct (Hrows boot_indx ltac:(by eapply list_elem_of_lookup_2)). }
    exists sample. split.
    { apply (bundle_gathers boot_indx dlist sample (length example_tc));
        [|exact Hs]. by apply Forall_forall. }
    simpl in Hold. apply lookup_replicate in Hold as [-> _].
    simpl in Hv. injection Hv as ->. exact Hres.
Qed.

Lemma ts_boot_same_index_row_witness :
  head paired_bundle = Some [[Fin 1]; [Fin 2]; [Fin 3]] ∧
  Forall (λ d, length d = length [[Fin 1]; [Fin 2]; [Fin 3]]) paired_bundle ∧
  1 ≤ 2 ≤ Z.of_nat (length [[Fin 1]; [Fin 2]; [Fin 3]]) ∧
  ∃ indexes res w1 w2 w',
    tape w1 = tape (world_of_draws [2; 1; 0; 2]) ∧
    drawn w1 = drawn (world_of_draws [2; 1; 0; 2]) ∧
    bootstrap_ts_indexes [[Fin 1]; [Fin 2]; [Fin 3]] 2 2 "circular" w1
      = (Ok indexes, w2) ∧
    ts_boot first_slice paired_bundle 2 2 "circular" None None
      (world_of_draws [2; 1; 0; 2]) = (Ok res, w') ∧
    length indexes = 2%nat ∧ length res = 2%nat ∧
    ∀ i boot_indx, indexes !! i = Some boot_indx →
      length boot_indx = length [[Fin 1]; [Fin 2]; [Fin 3]] ∧
      ∃ sample,
        Forall2 (λ data s,
                   fancy_index boot_indx data = Ok s ∧
                   length s = length boot_indx ∧
                   ∀ k e, boot_indx !! k = Some e →
                     s !! k
                     = data !! Z.to_nat
                                 (e `mod` Z.of_nat
                                            (length [[Fin 1]; [Fin 2]; [Fin 3]])))
                paired_bundle sample ∧
        res !! i = Some (Some (first_slice sample)).
Proof.
  assert (head paired_bundle = Some [[Fin 1]; [Fin 2]; [Fin 3]]) as H1
    by reflexivity.
  assert (Forall (λ d, length d = length [[Fin 1]; [Fin 2]; [Fin 3]])
                 paired_bundle) as H2
    by (repeat constructor).
  assert (1 ≤ 2 ≤ Z.of_nat (length [[Fin 1]; [Fin 2]; [Fin 3]])) as H3
    by (simpl; lia).
  split; [exact H1|]. split; [exact H2|]. split; [exact H3|].
  exact (proj2 (ts_boot_same_index_row first_slice paired_bundle 2 2 "circular")
               [[Fin 1]; [Fin 2]; [Fin 3]] (world_of_draws [2; 1; 0; 2])
               H1 H2 H3).
Defined.

(** ** The two-group difference *)

Lemma length_transpose_row m (arr : buffer) j (a : list npfloat) :
  transpose m arr !! j = Some a → length a = length arr.
Proof.
  unfold transpose. rewrite list_lookup_fmap.
  destruct (seq 0 m !! j); [|discriminate]. simpl.
  intros [= <-]. by rewrite length_fmap.
Qed.

Lemma np_sum_cons (b : bool) (mask : list bool) :
  np_sum (b :: mask) = ((if b then 1 else 0) + np_sum mask)%nat.
Proof.
  unfold np_sum. rewrite filter_cons.
  destruct b; case_decide; done.
Qed.

(** A difference that is a number is either positive or not. *)
Lemma sign_partition (d : list npfloat) :
  Forall (λ x, x ≠ NaN) d →
  (np_sum ((λ x, fgt x (Fin 0)) <$> d) + np_sum ((λ x, fle x (Fin 0)) <$> d)
   = length d)%nat.
Proof.
  induction 1 as [|x d Hx _ IH]; [reflexivity|].
  rewrite !fmap_cons, !np_sum_cons. simpl length.
  assert (fgt x (Fin 0) = negb (fle x (Fin 0))) as ->.
  { destruct x as [| |q|]; try done. unfold fgt. simpl.
    by destruct (Qlt_le_dec 0 q). }
  destruct (fle x (Fin 0)); cbn [negb]; lia.
Qed.

Lemma np_mean_partition (d : list npfloat) :
  d ≠ [] → Forall (λ x, x ≠ NaN) d →
  ∃ p q,
    np_mean ((λ x, fgt x (Fin 0)) <$> d) = Fin p ∧
    np_mean ((λ x, fle x (Fin 0)) <$> d) = Fin q ∧
    (p + q == 1)%Q.
Proof.
  intros Hne Hd. pose proof (sign_partition d Hd) as Hsum.
  destruct d as [|x d]; [done|].
  eexists _, _. split; [reflexivity|]. split; [reflexivity|].
  rewrite !length_fmap.
  set (g := np_sum ((λ x, fgt x (Fin 0)) <$> x :: d)) in *.
  set (k := np_sum ((λ x, fle x (Fin 0)) <$> x :: d)) in *.
  unfold Qeq, Qplus. simpl Qnum. simpl Qden.
  set (n := Pos.of_nat (length (x :: d))).
  assert (Z.pos n = Z.of_nat g + Z.of_nat k) as Hn.
  { subst n. simpl length in *. rewrite <- Pos.of_nat_succ.
    rewrite Zpos_P_of_succ_nat. lia. }
  change (Pos.of_nat (S (length d))) with n. clearbody n g k.
  rewrite Pos2Z.inj_mul. nia.
Qed.

Lemma bind_Ok {A B} (m : M A) (k : A → M B) w b w' :
  mbind k m w = (Ok b, w') →
  ∃ a w1, m w = (Ok a, w1) ∧ k a w1 = (Ok b, w').
Proof.
  unfold mbind, M_bind, bind. destruct (m w) as [[a|e] w1]; [|discriminate].
  intros H. by exists a, w1.
Qed.

Lemma alloc_Ok (b : buffer) w p w1 :
  alloc b w = (Ok p, w1) →
  (p ∉ dom (heap w)) ∧ heap w1 = <[p := b]> (heap w) ∧
  tape w1 = tape w ∧ drawn w1 = drawn w.
Proof.
  unfold alloc. intros [= <- <-]. simpl. split; [apply is_fresh|done].
Qed.

(** What a normal return of [run_boot_within_isc_diff] holds. *)
Lemma run_boot_spec calc A B l n_reps out_arr w res w' :
  run_boot_within_isc_diff calc A B l n_reps out_arr w = (Ok res, w') →
  ∃ m (dA dB : buffer),
    length dA = n_reps ∧ length dB = n_reps ∧
    distA res = transpose m dA ∧ distB res = transpose m dB ∧
    p_gt res = (λ d, np_mean ((λ x, fgt x (Fin 0)) <$> d))
                 <$> zip_with (zip_with fsub) (distA res) (distB res) ∧
    p_ltq res = (λ d, np_mean ((λ x, fle x (Fin 0)) <$> d))
                  <$> zip_with (zip_with fsub) (distA res) (distB res).
Proof.
  unfold run_boot_within_isc_diff. intros H.
  apply bind_Ok in H as (A0 & w0 & _ & H).
  set (m := match A0 with [] => 0%nat | f :: _ => length f end) in *.
  apply bind_Ok in H as (p0 & w1 & Hp0 & H).
  apply alloc_Ok in Hp0 as (_ & Hh1 & _).
  apply bind_Ok in H as (zeros & w2 & Hz & H).
  injection Hz as <- <-.
  apply bind_Ok in H as (pA & w3 & HpA & H).
  apply alloc_Ok in HpA as (HpA & Hh3 & _).
  apply bind_Ok in H as (dA & w4 & HdA & H).
  apply bind_Ok in H as (zeros' & w5 & Hz' & H).
  injection Hz' as <- <-.
  apply bind_Ok in H as (pB & w6 & HpB & H).
  apply alloc_Ok in HpB as (_ & Hh6 & _).
  apply bind_Ok in H as (dB & w7 & HdB & H).
  apply bind_Ok in H as (rr & w8 & _ & H).
  injection H as <- _.
  assert (heap w1 !! p0 = Some (replicate n_reps (Some (replicate m (Fin 0)))))
    as Hzeros by (by rewrite Hh1, lookup_insert_eq).
  assert (pA ≠ p0) as Hne.
  { intros ->. apply HpA. apply elem_of_dom. eexists. exact Hzeros. }
  assert (heap w4 !! p0 = heap w3 !! p0) as Hkeep.
  { pose proof (ts_boot_frame calc A l n_reps "circular" (Some pA) None w3 p0)
      as Hf. rewrite HdA in Hf. apply Hf; [|congruence].
    apply elem_of_dom. rewrite Hh3, lookup_insert_ne by done.
    eexists. exact Hzeros. }
  apply ts_boot_spec in HdA
    as (? & ? & ? & ? & ? & _ & _ & [= <- <-] & _ & HlenA & _).
  apply ts_boot_spec in HdB
    as (? & ? & ? & ? & ? & _ & _ & [= <- <-] & _ & HlenB & _).
  exists m, dA, dB. repeat split; try done.
  - rewrite HlenA, Hh3, lookup_insert_eq, Hzeros. simpl.
    by rewrite length_replicate.
  - rewrite HlenB, Hh6, lookup_insert_eq, Hkeep, Hh3.
    rewrite lookup_insert_ne, Hzeros by done. simpl.
    by rewrite length_replicate.
Qed.

(** C8, as the code has it.  When the call returns with at least one
    replicate, there is one pair of p-values per spatial location, and at
    every location where no replicate difference [distA - distB] is NaN
    the two fractions add up to 1. *)
Theorem p_values_sum_to_one calc A B l n_reps out_arr w res w' :
  run_boot_within_isc_diff calc A B l n_reps out_arr w = (Ok res, w') →
  (1 ≤ n_reps)%nat →
  length (distB res) = length (distA res) ∧
  length (p_gt res) = length (distA res) ∧
  length (p_ltq res) = length (distA res) ∧
  ∀ j a b,
    distA res !! j = Some a → distB res !! j = Some b →
    Forall (λ x, x ≠ NaN) (zip_with fsub a b) →
    ∃ p q,
      p_gt res !! j = Some (Fin p) ∧ p_ltq res !! j = Some (Fin q) ∧
      (p + q == 1)%Q.
Proof.
  intros Hrun Hn.
  apply run_boot_spec in Hrun
    as (m & dA & dB & HlA & HlB & HA & HB & Hgt & Hle).
  assert (length (distA res) = m) as HmA
    by (rewrite HA; unfold transpose; by rewrite length_fmap, length_seq).
  assert (length (distB res) = m) as HmB
    by (rewrite HB; unfold transpose; by rewrite length_fmap, length_seq).
  split; [congruence|].
  split; [rewrite Hgt, length_fmap, length_zip_with; lia|].
  split; [rewrite Hle, length_fmap, length_zip_with; lia|].
  intros j a b Ha Hb Hnum.
  assert (length a = n_reps) as Hla
    by (rewrite HA in Ha; apply length_transpose_row in Ha; congruence).
  assert (length b = n_reps) as Hlb
    by (rewrite HB in Hb; apply length_transpose_row in Hb; congruence).
  destruct (np_mean_partition (zip_with fsub a b)) as (p & q & Hp & Hq & Hpq);
    [|exact Hnum|].
  { intros Hnil. apply (f_equal length) in Hnil.
    rewrite length_zip_with in Hnil. simpl in Hnil. lia. }
  assert (zip_with (zip_with fsub) (distA res) (distB res) !! j
          = Some (zip_with fsub a b)) as Hz
    by (apply lookup_zip_with_Some; by exists a, b).
  exists p, q. split; [|split; [|exact Hpq]].
  - rewrite Hgt, list_lookup_fmap, Hz.
    cbn [fmap option_fmap option_map]. by rewrite Hp.
  - rewrite Hle, list_lookup_fmap, Hz.
    cbn [fmap option_fmap option_map]. by rewrite Hq.
Qed.

Lemma p_values_sum_to_one_witness :
  (1 ≤ 2)%nat ∧
  ∃ res w',
    run_boot_within_isc_diff first_slice measured_group paired_bundle 2 2 None
      (world_of_draws [2; 1; 0; 2; 1; 1; 0; 0]) = (Ok res, w') ∧
    length (distB res) = length (distA res) ∧
    length (p_gt res) = length (distA res) ∧
    length (p_ltq res) = length (distA res) ∧
    ∀ j a b,
      distA res !! j = Some a → distB res !! j = Some b →
      Forall (λ x, x ≠ NaN) (zip_with fsub a b) →
      ∃ p q,
        p_gt res !! j = Some (Fin p) ∧ p_ltq res !! j = Some (Fin q) ∧
        (p + q == 1)%Q.
Proof.
  assert (1 ≤ 2)%nat as H by lia.
  split; [exact H|]. eexists _, _.
  split; [vm_compute; reflexivity|].
  refine (p_values_sum_to_one first_slice measured_group paired_bundle 2 2 None
            (world_of_draws [2; 1; 0; 2; 1; 1; 0; 0]) _ _ _ H).
  vm_compute. reflexivity.
Defined.

(** C8 as stated fails where a replicate difference is NaN: with one
    replicate and a group whose location is NaN, neither comparison counts
    the replicate and both p-values are 0. *)
Lemma p_values_drop_nan_replicate :
  ∃ w',
    run_boot_within_isc_diff first_slice thresholded_group measured_group
      2 1 None (world_of_draws [2; 1; 0; 2])
    = (Ok (IscDiff [[NaN]] [[Fin 1]] [NaN] [Fin 0] [Fin 0]), w') ∧
    ¬ (0 + 0 == 1)%Q.
Proof. eexists. split; [vm_compute; reflexivity|discriminate]. Qed.

(** Sequencing keeps an existing object when both halves do. *)
Lemma frame_bind {A B} (q : loc) (m : M A) (k : A → M B) w :
  q ∈ dom (heap w) →
  heap (m w).2 !! q = heap w !! q →
  (∀ a w1, m w = (Ok a, w1) → q ∈ dom (heap w1) →
           heap (k a w1).2 !! q = heap w1 !! q) →
  heap (mbind k m w).2 !! q = heap w !! q.
Proof.
  unfold mbind, M_bind, bind. intros Hq Hm Hk.
  destruct (m w) as [[a|e] w1] eqn:E; simpl in *; [|done].
  rewrite Hk; [done..|]. apply elem_of_dom. rewrite Hm. by apply elem_of_dom.
Qed.

Lemma alloc_frame (b : list (option (list npfloat))) (q : loc) w :
  q ∈ dom (heap w) → heap (alloc b w).2 !! q = heap w !! q.
Proof.
  intros Hq. unfold alloc. simpl. apply lookup_insert_ne.
  intros <-. by apply (is_fresh (dom (heap w))).
Qed.

Lemma alloc_fresh (b : list (option (list npfloat))) (q p : loc) w w1 :
  q ∈ dom (heap w) → alloc b w = (Ok p, w1) → Some p ≠ Some q.
Proof.
  intros Hq [Hp _]%alloc_Ok [= ->]. done.
Qed.

(** Every object that exists before [run_boot_within_isc_diff] is called is
    the same after it, on every exit. *)
Lemma run_boot_frame calc A B l n_reps out_arr w (q : loc) :
  q ∈ dom (heap w) →
  heap (run_boot_within_isc_diff calc A B l n_reps out_arr w).2 !! q
  = heap w !! q.
Proof.
  intros Hq. unfold run_boot_within_isc_diff.
  apply frame_bind; [done|reflexivity|]. intros A0 w0 _ Hq0.
  apply frame_bind; [done|by apply alloc_frame|]. intros p0 w1 _ Hq1.
  apply frame_bind; [done|reflexivity|]. intros zeros w2 _ Hq2.
  apply frame_bind; [done|by apply alloc_frame|]. intros pA w3 HpA Hq3.
  apply frame_bind; [done| |].
  { apply ts_boot_frame; [done|]. exact (alloc_fresh _ _ _ _ _ Hq2 HpA). }
  intros dA w4 _ Hq4.
  apply frame_bind; [done|reflexivity|]. intros zeros' w5 _ Hq5.
  apply frame_bind; [done|by apply alloc_frame|]. intros pB w6 HpB Hq6.
  apply frame_bind; [done| |].
  { apply ts_boot_frame; [done|]. exact (alloc_fresh _ _ _ _ _ Hq5 HpB). }
  intros dB w7 _ Hq7.
  apply frame_bind; [done|reflexivity|]. intros rr w8 _ Hq8.
  reflexivity.
Qed.

Lemma blind_bind {A B} p (m : M A) (k : A → M B) w1 w2 :
  blind p m w1 w2 →
  (∀ a w1' w2', m w1 = (Ok a, w1') → m w2 = (Ok a, w2') → agree p w1' w2' →
                blind p (k a) w1' w2') →
  blind p (mbind k m) w1 w2.
Proof.
  unfold blind, mbind, M_bind, bind. intros [Hres Hag] Hk.
  destruct (m w1) as [[a|e] w1'], (m w2) as [[a'|e'] w2'];
    simpl in *; try discriminate.
  - injection Hres as <-. by apply Hk.
  - injection Hres as <-. by split.
Qed.

Lemma blind_lift {A} p (r : result A) w1 w2 :
  agree p w1 w2 → blind p (lift r) w1 w2.
Proof. by split. Qed.

Lemma blind_alloc p (b : list (option (list npfloat))) w1 w2 :
  agree p w1 w2 → blind p (alloc b) w1 w2.
Proof.
  intros (Hp & Hdom & Ht & Hd & Hoff). unfold blind, alloc. simpl.
  rewrite <- Hdom. split; [done|]. unfold agree. cbn [heap tape drawn].
  split; [|split; [|split; [done|split; [done|]]]].
  - rewrite dom_insert_L. apply elem_of_union. by right.
  - by rewrite !dom_insert_L, Hdom.
  - intros q Hq. destruct (decide (q = fresh (dom (heap w1)))) as [->|Hne].
    + by rewrite !lookup_insert_eq.
    + rewrite !lookup_insert_ne by done. by apply Hoff.
Qed.

Lemma blind_contents p (q : loc) w1 w2 :
  q ≠ p → agree p w1 w2 → blind p (contents q) w1 w2.
Proof.
  intros Hq Hag. split; [|done]. unfold contents. simpl.
  destruct Hag as (_ & _ & _ & _ & Hoff). by rewrite (Hoff q Hq).
Qed.

Lemma blind_setitem p (q : loc) ii v w1 w2 :
  q ≠ p → agree p w1 w2 → blind p (setitem q ii v) w1 w2.
Proof.
  intros Hq (Hp & Hdom & Ht & Hd & Hoff). unfold blind, setitem.
  rewrite <- (Hoff q Hq).
  destruct (default [] (heap w1 !! q) !! ii) as [old|]; [|by repeat split].
  destruct (assign old v) as [v'|e]; [|by repeat split].
  simpl. split; [done|]. unfold agree. cbn [heap tape drawn].
  split; [|split; [|split; [done|split; [done|]]]].
  - rewrite dom_insert_L. apply elem_of_union. by right.
  - by rewrite !dom_insert_L, Hdom.
  - intros q' Hq'. destruct (decide (q' = q)) as [->|Hne].
    + by rewrite !lookup_insert_eq.
    + rewrite !lookup_insert_ne by done. by apply Hoff.
Qed.

Lemma blind_bootstrap_ts_indexes {T} p (data : list T) l n_samples method w1 w2 :
  agree p w1 w2 →
  blind p (bootstrap_ts_indexes data l n_samples method) w1 w2.
Proof.
  intros (Hp & Hdom & Ht & Hd & Hoff).
  unfold blind, bootstrap_ts_indexes, mbind, M_bind, bind, ceil_div, randint,
    ret, raise.
  destruct (String.eqb method "circular"); [|by repeat split].
  destruct (l =? 0); [by repeat split|].
  destruct (_ || _); [by repeat split|].
  simpl. rewrite Ht, Hd. by repeat split.
Qed.

Lemma blind_ts_boot_loop p func dlist (out : loc) indexes :
  out ≠ p →
  ∀ ii w1 w2, agree p w1 w2 →
    blind p (ts_boot_loop func dlist out ii indexes) w1 w2.
Proof.
  intros Hout. induction indexes as [|boot_indx indexes IH]; intros ii w1 w2 Hag.
  - by split.
  - simpl. apply blind_bind; [by apply blind_lift|].
    intros sample w1' w2' _ _ Hag'.
    apply blind_bind; [by apply blind_setitem|].
    intros [] w1'' w2'' _ _ Hag''. by apply IH.
Qed.

Lemma blind_ts_boot p func dlist l n_samples method out indx_file w1 w2 :
  out ≠ Some p → agree p w1 w2 →
  blind p (ts_boot func dlist l n_samples method out indx_file) w1 w2.
Proof.
  intros Hout Hag. unfold ts_boot.
  destruct (negb _); [by split|].
  apply blind_bind; [by apply blind_lift|]. intros example_tc w1a w2a _ _ Ha.
  apply blind_bind.
  { destruct out; [by split|]. by apply blind_alloc. }
  intros q w1b w2b Hq _ Hb.
  assert (q ≠ p) as Hne.
  { destruct out as [q'|]; [injection Hq as <- _; congruence|].
    apply alloc_Ok in Hq as [Hfresh _]. intros ->.
    by destruct Ha as [? _]. }
  apply blind_bind.
  { destruct indx_file; [by split|]. by apply blind_bootstrap_ts_indexes. }
  intros indexes w1c w2c _ _ Hc.
  apply blind_bind; [by apply blind_ts_boot_loop|].
  intros [] w1d w2d _ _ Hd. by apply blind_contents.
Qed.

Lemma blind_run_boot p calc A B l n_reps out_arr w1 w2 :
  agree p w1 w2 →
  blind p (run_boot_within_isc_diff calc A B l n_reps out_arr) w1 w2.
Proof.
  intros Hag. unfold run_boot_within_isc_diff.
  assert (∀ (b : list (option (list npfloat))) q v1 v1' v2,
            agree p v1 v2 → alloc b v1 = (Ok q, v1') → q ≠ p) as Hnew.
  { intros b q v1 v1' v2 [Hp _] [Hfresh _]%alloc_Ok ->. done. }
  apply blind_bind; [by apply blind_lift|]. intros A0 u1 u2 _ _ H0.
  apply blind_bind; [by apply blind_alloc|]. intros p0 x1 x2 Hp0 _ H1.
  pose proof (Hnew _ _ _ _ _ H0 Hp0) as Hne0.
  apply blind_bind; [by apply blind_contents|]. intros zeros y1 y2 _ _ H2.
  apply blind_bind; [by apply blind_alloc|]. intros pA z1 z2 HpA _ H3.
  pose proof (Hnew _ _ _ _ _ H2 HpA) as HneA.
  apply blind_bind; [apply blind_ts_boot; [congruence|done]|].
  intros dA a1 a2 _ _ H4.
  apply blind_bind; [by apply blind_contents|]. intros zeros' b1 b2 _ _ H5.
  apply blind_bind; [by apply blind_alloc|]. intros pB c1 c2 HpB _ H6.
  pose proof (Hnew _ _ _ _ _ H5 HpB) as HneB.
  apply blind_bind; [apply blind_ts_boot; [congruence|done]|].
  intros dB d1 d2 _ _ H7.
  apply blind_bind; [by apply blind_lift|]. intros rr e1 e2 _ _ H8.
  by split.
Qed.

(** C10.  The [out_arr] argument is rebound before any use.  The call
    behaves the same with a caller buffer as with none; its outcome is the
    same whatever the buffer holds; and the buffer (like every object that
    existed before the call) is the same afterwards, on every exit. *)
Theorem out_arr_never_used calc A B l n_reps (p : loc) w :
  p ∈ dom (heap w) →
  run_boot_within_isc_diff calc A B l n_reps (Some p) w
    = run_boot_within_isc_diff calc A B l n_reps None w ∧
  (∀ b : list (option (list npfloat)),
     (run_boot_within_isc_diff calc A B l n_reps (Some p)
        (World (<[p := b]> (heap w)) (tape w) (drawn w))).1
     = (run_boot_within_isc_diff calc A B l n_reps (Some p) w).1) ∧
  heap (run_boot_within_isc_diff calc A B l n_reps (Some p) w).2 !! p
    = heap w !! p.
Proof.
  intros Hp. split; [reflexivity|]. split; [|by apply run_boot_frame].
  intros b. symmetry. apply (blind_run_boot p). unfold agree. simpl.
  split; [done|]. split; [|split; [done|split; [done|]]].
  - rewrite dom_insert_L. symmetry. apply subseteq_union_1_L.
    by apply singleton_subseteq_l.
  - intros q Hq. by rewrite lookup_insert_ne.
Qed.

Lemma out_arr_never_used_witness :
  1%positive ∈ dom (heap (world_with_buffer [Some [Fin 7]; Some [Fin 8]]
                            [2; 1; 0; 2; 1; 1; 0; 0])) ∧
  run_boot_within_isc_diff first_slice measured_group paired_bundle 2 2
    (Some 1%positive)
    (world_with_buffer [Some [Fin 7]; Some [Fin 8]] [2; 1; 0; 2; 1; 1; 0; 0])
  = run_boot_within_isc_diff first_slice measured_group paired_bundle 2 2 None
      (world_with_buffer [Some [Fin 7]; Some [Fin 8]] [2; 1; 0; 2; 1; 1; 0; 0]) ∧
  (∀ b : list (option (list npfloat)),
     (run_boot_within_isc_diff first_slice measured_group paired_bundle 2 2
        (Some 1%positive)
        (World (<[1%positive := b]>
                  (heap (world_with_buffer [Some [Fin 7]; Some [Fin 8]]
                           [2; 1; 0; 2; 1; 1; 0; 0])))
               (tape (world_with_buffer [Some [Fin 7]; Some [Fin 8]]
                        [2; 1; 0; 2; 1; 1; 0; 0]))
               (drawn (world_with_buffer [Some [Fin 7]; Some [Fin 8]]
                         [2; 1; 0; 2; 1; 1; 0; 0])))).1
     = (run_boot_within_isc_diff first_slice measured_group paired_bundle 2 2
          (Some 1%positive)
          (world_with_buffer [Some [Fin 7]; Some [Fin 8]]
             [2; 1; 0; 2; 1; 1; 0; 0])).1) ∧
  heap (run_boot_within_isc_diff first_slice measured_group paired_bundle 2 2
          (Some 1%positive)
          (world_with_buffer [Some [Fin 7]; Some [Fin 8]]
             [2; 1; 0; 2; 1; 1; 0; 0])).2 !! 1%positive
  = heap (world_with_buffer [Some [Fin 7]; Some [Fin 8]]
            [2; 1; 0; 2; 1; 1; 0; 0]) !! 1%positive.
Proof.
  assert (1%positive ∈ dom (heap (world_with_buffer [Some [Fin 7]; Some [Fin 8]]
                                    [2; 1; 0; 2; 1; 1; 0; 0]))) as H
    by (vm_compute; reflexivity).
  split; [exact H|].
  exact (out_arr_never_used first_slice measured_group paired_bundle 2 2
           1%positive
           (world_with_buffer [Some [Fin 7]; Some [Fin 8]]
              [2; 1; 0; 2; 1; 1; 0; 0]) H).
Defined.

(** * Further properties of the code *)

(** ** More on the index sampler *)

Lemma bind_singletons (b : list Z) : b ≫= (λ s, [s + 0]) = b.
Proof.
  induction b as [|s b IH]; [reflexivity|].
  rewrite bind_cons, IH. simpl. f_equal. lia.
Qed.

(** Entry [i] of block [j] in a concatenation of blocks of one length. *)
Lemma bind_lookup_block (f : Z → list Z) (k : nat) (b : list Z) :
  (∀ x, length (f x) = k) →
  ∀ j s i, b !! j = Some s → (i < k)%nat →
    (b ≫= f) !! (j * k + i)%nat = f s !! i.
Proof.
  intros Hf. induction b as [|x b IH]; intros j s i Hj Hi; [done|].
  rewrite bind_cons. destruct j as [|j].
  - injection Hj as ->. simpl. apply lookup_app_l. by rewrite Hf.
  - rewrite lookup_app_r by (rewrite Hf; simpl; lia).
    replace (S j * k + i - length (f x))%nat with (j * k + i)%nat
      by (rewrite Hf; simpl; lia).
    by apply IH.
Qed.

(** X1.  With blocks of length 1 nothing wraps: the matrix returned is the
    matrix of drawn starts itself, [n] independent draws from [[0, n)] per
    replicate. *)
Theorem unit_blocks_are_the_draws {T} (data : list T) n_samples w :
  1 ≤ Z.of_nat (length data) →
  ∃ blocks w',
    randint (Z.of_nat (length data)) n_samples (Z.of_nat (length data)) w
      = (Ok blocks, w') ∧
    bootstrap_ts_indexes data 1 n_samples "circular" w = (Ok blocks, w') ∧
    length blocks = n_samples ∧
    Forall (λ row, length row = length data ∧
                   Forall (λ e, 0 ≤ e < Z.of_nat (length data)) row) blocks.
Proof.
  intros Hn.
  destruct (bootstrap_ts_indexes_run data 1 n_samples w)
    as (blocks & w' & Hr & Hrun & _ & Hlen & Hb); [lia|].
  replace (- ((- Z.of_nat (length data)) `div` 1)) with (Z.of_nat (length data))
    in * by (rewrite Z.div_1_r; lia).
  exists blocks, w'. split; [exact Hr|]. split; [|split; [exact Hlen|]].
  - rewrite Hrun. f_equal. f_equal. unfold circ.
    rewrite <- list_fmap_compose. rewrite <- (list_fmap_id blocks) at 2.
    apply list_fmap_ext. intros i b Hi. simpl.
    rewrite Forall_forall in Hb.
    destruct (Hb b) as [Hbl Hbs]; [by eapply list_elem_of_lookup_2|].
    rewrite expand_block_blocks.
    assert ((λ s, if Z.of_nat (length data) - s <? 1
                  then s - Z.of_nat (length data) else s) <$> b = b) as ->.
    { rewrite <- (list_fmap_id b) at 2. apply list_fmap_ext.
      intros k s Hs. simpl. rewrite Forall_forall in Hbs.
      pose proof (Hbs s ltac:(by eapply list_elem_of_lookup_2)).
      destruct (Z.ltb_spec (Z.of_nat (length data) - s) 1); [lia|done]. }
    change (seqZ 0 1) with [0]. simpl. rewrite bind_singletons.
    apply take_ge. lia.
  - eapply Forall_impl; [exact Hb|]. intros b [Hbl Hbs]. split; [lia|done].
Qed.

Lemma unit_blocks_are_the_draws_witness :
  1 ≤ Z.of_nat (length (replicate 3 ())) ∧
  ∃ blocks w',
    randint (Z.of_nat (length (replicate 3 ()))) 2
            (Z.of_nat (length (replicate 3 ()))) (world_of_draws [2; 0; 4; 7; 1; 1])
      = (Ok blocks, w') ∧
    bootstrap_ts_indexes (replicate 3 ()) 1 2 "circular"
      (world_of_draws [2; 0; 4; 7; 1; 1]) = (Ok blocks, w') ∧
    length blocks = 2%nat ∧
    Forall (λ row, length row = length (replicate 3 ()) ∧
                   Forall (λ e, 0 ≤ e < Z.of_nat (length (replicate 3 ()))) row)
           blocks.
Proof.
  assert (1 ≤ Z.of_nat (length (replicate 3 ()))) as H by (simpl; lia).
  split; [exact H|].
  exact (unit_blocks_are_the_draws (replicate 3 ()) 2
           (world_of_draws [2; 0; 4; 7; 1; 1]) H).
Defined.

(** X2.  The circular block structure of a row.  A row is built from the
    [N = ceil(n / l)] starts drawn for it: entry [j * l + i] (as far as the
    row goes) belongs to block [j], is the start after [circ] plus [i], and
    is read by numpy at the place [(s + i) mod n], where [s] is the [j]-th
    drawn start. *)
Theorem blocks_wrap_modulo {T} (data : list T) l n_samples w :
  1 ≤ l ≤ Z.of_nat (length data) →
  ∃ blocks indexes w',
    randint (Z.of_nat (length data)) n_samples
            (- ((- Z.of_nat (length data)) `div` l)) w = (Ok blocks, w') ∧
    bootstrap_ts_indexes data l n_samples "circular" w = (Ok indexes, w') ∧
    length indexes = length blocks ∧
    ∀ r b row (j : nat) s i,
      blocks !! r = Some b → indexes !! r = Some row → b !! j = Some s →
      0 ≤ i < l → Z.of_nat j * l + i < Z.of_nat (length data) →
      ∃ e, row !! Z.to_nat (Z.of_nat j * l + i) = Some e ∧
           e = (if Z.of_nat (length data) - s <? l
                then s - Z.of_nat (length data) else s) + i ∧
           position (Z.of_nat (length data)) e
             = (s + i) `mod` Z.of_nat (length data).
Proof.
  intros Hl. set (n := Z.of_nat (length data)) in *.
  destruct (bootstrap_ts_indexes_run data l n_samples w Hl)
    as (blocks & w' & Hr & Hrun & _ & Hlen & Hb).
  fold n in Hr, Hrun, Hb.
  eexists blocks, _, w'. split; [exact Hr|]. split; [exact Hrun|].
  split; [by unfold circ; rewrite !length_fmap|].
  intros r b row j s i Hbr Hrow Hj Hi Hin.
  unfold circ in Hrow. rewrite <- list_fmap_compose in Hrow.
  rewrite list_lookup_fmap, Hbr in Hrow. simpl in Hrow.
  injection Hrow as <-.
  rewrite Forall_forall in Hb.
  destruct (Hb b) as [_ Hbs]; [by eapply list_elem_of_lookup_2|].
  rewrite Forall_forall in Hbs.
  pose proof (Hbs s ltac:(by eapply list_elem_of_lookup_2)) as Hs.
  set (c := if n - s <? l then s - n else s).
  exists (c + i). split; [|split; [done|]].
  - rewrite lookup_take_lt by (subst n; lia).
    rewrite expand_block_blocks.
    replace (Z.to_nat (Z.of_nat j * l + i))
      with (j * Z.to_nat l + Z.to_nat i)%nat by nia.
    assert (∀ x, length ((λ s0, (λ ii, s0 + ii) <$> seqZ 0 l) x) = Z.to_nat l)
      as Hf by (intros x; by rewrite length_fmap, length_seqZ).
    rewrite (bind_lookup_block _ (Z.to_nat l) _ Hf j c (Z.to_nat i)).
    + rewrite list_lookup_fmap, lookup_seqZ_lt by lia. simpl.
      f_equal. lia.
    + by rewrite list_lookup_fmap, Hj.
    + lia.
  - subst c. unfold position.
    destruct (Z.ltb_spec (n - s) l).
    + destruct (Z.ltb_spec (s - n + i) 0).
      * symmetry. replace (s - n + i + n) with (s + i) by lia.
        apply Z.mod_small. lia.
      * symmetry. replace (s + i) with (s - n + i + 1 * n) by lia.
        rewrite Z.mod_add by lia. apply Z.mod_small. lia.
    + destruct (Z.ltb_spec (s + i) 0); [lia|].
      symmetry. apply Z.mod_small. lia.
Qed.

Lemma blocks_wrap_modulo_witness :
  1 ≤ 4 ≤ Z.of_nat (length (replicate 12 ())) ∧
  ∃ blocks indexes w',
    randint (Z.of_nat (length (replicate 12 ()))) 1
            (- ((- Z.of_nat (length (replicate 12 ()))) `div` 4))
            (world_of_draws [10; 3; 7]) = (Ok blocks, w') ∧
    bootstrap_ts_indexes (replicate 12 ()) 4 1 "circular"
      (world_of_draws [10; 3; 7]) = (Ok indexes, w') ∧
    length indexes = length blocks ∧
    ∀ r b row (j : nat) s i,
      blocks !! r = Some b → indexes !! r = Some row → b !! j = Some s →
      0 ≤ i < 4 → Z.of_nat j * 4 + i < Z.of_nat (length (replicate 12 ())) →
      ∃ e, row !! Z.to_nat (Z.of_nat j * 4 + i) = Some e ∧
           e = (if Z.of_nat (length (replicate 12 ())) - s <? 4
                then s - Z.of_nat (length (replicate 12 ())) else s) + i ∧
           position (Z.of_nat (length (replicate 12 ()))) e
             = (s + i) `mod` Z.of_nat (length (replicate 12 ())).
Proof.
  assert (1 ≤ 4 ≤ Z.of_nat (length (replicate 12 ()))) as H by (simpl; lia).
  split; [exact H|].
  exact (blocks_wrap_modulo (replicate 12 ()) 4 1 (world_of_draws [10; 3; 7]) H).
Defined.

(** X3.  Degenerate sizes.  A block length 0 stops at the division with
    [ZeroDivisionError]; a negative block length no longer than the series
    asks [randint] for a negative number of columns and stops there with
    [ValueError].  An empty series with any other block length is not an
    error: no start is requested, so [randint] hands back an empty array
    without looking at its range, and the result is [n_samples] rows
    without entries.  In each case the generator has not moved and nothing
    was stored. *)
Theorem sampler_degenerate_sizes n_samples w :
  (∀ T (data : list T),
     bootstrap_ts_indexes data 0 n_samples "circular" w
     = (Raise ZeroDivisionError, w)) ∧
  (∀ T l, l ≠ 0 →
     bootstrap_ts_indexes (@nil T) l n_samples "circular" w
     = (Ok (replicate n_samples []), w)) ∧
  (∀ T (data : list T) l,
     l < 0 → - l ≤ Z.of_nat (length data) →
     bootstrap_ts_indexes data l n_samples "circular" w
     = (Raise ValueError, w)).
Proof.
  split; [|split].
  - intros T data. reflexivity.
  - intros T l Hl. unfold bootstrap_ts_indexes, mbind, M_bind, bind, ceil_div.
    simpl. destruct (Z.eqb_spec l 0); [done|]. unfold ret, randint.
    change (- 0 `div` l) with (- (0 `div` l)).
    rewrite Z.div_0_l by done. simpl. rewrite Nat.mul_0_r. simpl.
    f_equal.
    + f_equal. unfold circ. rewrite <- !list_fmap_compose.
      rewrite (const_fmap _ _ []) by done. by rewrite length_seq.
    + destruct w as [h t d]. simpl. f_equal. lia.
  - intros T data l Hl Hn.
    unfold bootstrap_ts_indexes, mbind, M_bind, bind, ceil_div, randint.
    simpl. destruct (Z.eqb_spec l 0); [lia|]. unfold ret.
    assert (1 ≤ (- Z.of_nat (length data)) `div` l) as Hq.
    { rewrite <- (Z.div_opp_opp (- Z.of_nat (length data)) l) by lia.
      rewrite Z.opp_involutive. apply Z.div_le_lower_bound; lia. }
    destruct (Z.ltb_spec (- ((- Z.of_nat (length data)) `div` l)) 0); [done|lia].
Qed.

Lemma sampler_degenerate_sizes_witness :
  bootstrap_ts_indexes (replicate 12 ()) 0 2 "circular" (world_of_draws [10])
    = (Raise ZeroDivisionError, world_of_draws [10]) ∧
  3 ≠ 0 ∧
  bootstrap_ts_indexes (@nil unit) 3 2 "circular" (world_of_draws [10])
    = (Ok [[]; []], world_of_draws [10]) ∧
  -4 < 0 ∧ - -4 ≤ Z.of_nat (length (replicate 12 ())) ∧
  bootstrap_ts_indexes (replicate 12 ()) (-4) 2 "circular" (world_of_draws [10])
    = (Raise ValueError, world_of_draws [10]).
Proof.
  pose proof (sampler_degenerate_sizes 2 (world_of_draws [10])) as (H0 & He & Hn).
  assert (3 ≠ 0) as H3 by lia.
  assert (-4 < 0) as H4 by lia.
  assert (- -4 ≤ Z.of_nat (length (replicate 12 ()))) as H5 by (simpl; lia).
  split; [exact (H0 unit (replicate 12 ()))|]. split; [exact H3|].
  split; [exact (He unit 3 H3)|]. split; [exact H4|]. split; [exact H5|].
  exact (Hn unit (replicate 12 ()) (-4) H4 H5).
Defined.

(** X4.  [circ] keeps the shape of the start array and moves every start by
    0 or by [-maxlen]; on starts drawn from [[0, maxlen)] with
    [l <= maxlen], running it again changes nothing, so an array that was
    already shifted in place is safe to pass once more. *)
Theorem circ_shifts_once (start : list (list Z)) l maxlen :
  l ≤ maxlen →
  Forall (Forall (λ s, 0 ≤ s < maxlen)) start →
  length (circ start l maxlen) = length start ∧
  Forall2 (Forall2 (λ s c, c = s ∨ (maxlen - s < l ∧ c = s - maxlen)))
          start (circ start l maxlen) ∧
  circ (circ start l maxlen) l maxlen = circ start l maxlen.
Proof.
  intros Hl Hs. unfold circ. split; [by rewrite length_fmap|]. split.
  - apply Forall2_fmap_r, Forall_Forall2_diag.
    eapply Forall_impl; [exact Hs|]. intros b Hb. simpl.
    apply Forall2_fmap_r, Forall_Forall2_diag.
    eapply Forall_impl; [exact Hb|]. intros s Hs'. simpl.
    destruct (Z.ltb_spec (maxlen - s) l); [right|left]; done.
  - rewrite <- list_fmap_compose. apply list_fmap_ext.
    intros i b Hi. simpl. rewrite <- list_fmap_compose.
    apply list_fmap_ext. intros k s Hk. simpl.
    rewrite Forall_forall in Hs.
    pose proof (Hs b ltac:(by eapply list_elem_of_lookup_2)) as Hb.
    rewrite Forall_forall in Hb.
    pose proof (Hb s ltac:(by eapply list_elem_of_lookup_2)) as Hs'.
    destruct (Z.ltb_spec (maxlen - s) l).
    + destruct (Z.ltb_spec (maxlen - (s - maxlen)) l); [lia|done].
    + destruct (Z.ltb_spec (maxlen - s) l); [lia|done].
Qed.

Lemma circ_shifts_once_witness :
  4 ≤ 12 ∧
  Forall (Forall (λ s, 0 ≤ s < 12)) [[10; 3; 7]; [0; 9; 8]] ∧
  length (circ [[10; 3; 7]; [0; 9; 8]] 4 12) = length [[10; 3; 7]; [0; 9; 8]] ∧
  Forall2 (Forall2 (λ s c, c = s ∨ (12 - s < 4 ∧ c = s - 12)))
          [[10; 3; 7]; [0; 9; 8]] (circ [[10; 3; 7]; [0; 9; 8]] 4 12) ∧
  circ (circ [[10; 3; 7]; [0; 9; 8]] 4 12) 4 12
    = circ [[10; 3; 7]; [0; 9; 8]] 4 12.
Proof.
  assert (4 ≤ 12) as H1 by lia.
  assert (Forall (Forall (λ s, 0 ≤ s < 12)) [[10; 3; 7]; [0; 9; 8]]) as H2
    by (repeat constructor; lia).
  split; [exact H1|]. split; [exact H2|].
  exact (circ_shifts_once [[10; 3; 7]; [0; 9; 8]] 4 12 H1 H2).
Defined.

(** ** Reading a series through an index row *)

(** X6.  Sampler and gather together.  Every index row drawn for a series
    of length [n] can be applied to any array with the same time-axis
    length: the resampled array again has [n] slices, and slice [k] is the
    original slice at [row[k] mod n], so a replicate holds original time
    points only. *)
Theorem resample_holds_original_slices
    (example_tc data : list (list npfloat)) l n_samples w :
  length data = length example_tc →
  1 ≤ l ≤ Z.of_nat (length example_tc) →
  ∃ indexes w',
    bootstrap_ts_indexes example_tc l n_samples "circular" w
      = (Ok indexes, w') ∧
    ∀ row, row ∈ indexes →
      ∃ sample,
        fancy_index row data = Ok sample ∧
        length sample = length data ∧
        (∀ k e, row !! k = Some e →
           sample !! k = data !! Z.to_nat (e `mod` Z.of_nat (length data))) ∧
        ∀ f, f ∈ sample → f ∈ data.
Proof.
  intros Hlen Hl.
  destruct (bootstrap_ts_indexes_rows example_tc l n_samples w Hl)
    as (indexes & w' & Hrun & _ & _ & Hrows).
  exists indexes, w'. split; [exact Hrun|]. intros row Hrow.
  rewrite Forall_forall in Hrows. destruct (Hrows row Hrow) as [Hrl Hes].
  destruct (for_each_ok (take_index data) row) as [sample Hs].
  { eapply Forall_impl; [exact Hes|]. intros e He. simpl in *.
    apply take_index_ok. rewrite Hlen. lia. }
  exists sample. split; [exact Hs|].
  apply for_each_Forall2 in Hs.
  assert (∀ k e, row !! k = Some e →
            sample !! k = data !! Z.to_nat (e `mod` Z.of_nat (length data)))
    as Hk.
  { intros k e He.
    destruct (Forall2_lookup_l _ _ _ _ _ Hs He) as (f & Hf & Ht).
    apply take_index_inv in Ht as [_ Ht]. by rewrite Hf, Ht. }
  split; [by rewrite <- (Forall2_length _ _ _ Hs), Hrl|]. split; [exact Hk|].
  intros f [k Hf]%list_elem_of_lookup.
  destruct (Forall2_lookup_r _ _ _ _ _ Hs Hf) as (e & He & _).
  rewrite (Hk k e He) in Hf. by eapply list_elem_of_lookup_2.
Qed.

Lemma resample_holds_original_slices_witness :
  length [[Fin 10]; [Fin 20]; [Fin 30]] = length [[Fin 1]; [Fin 2]; [Fin 3]] ∧
  1 ≤ 2 ≤ Z.of_nat (length [[Fin 1]; [Fin 2]; [Fin 3]]) ∧
  ∃ indexes w',
    bootstrap_ts_indexes [[Fin 1]; [Fin 2]; [Fin 3]] 2 2 "circular"
      (world_of_draws [2; 1; 0; 2]) = (Ok indexes, w') ∧
    ∀ row, row ∈ indexes →
      ∃ sample,
        fancy_index row [[Fin 10]; [Fin 20]; [Fin 30]] = Ok sample ∧
        length sample = length [[Fin 10]; [Fin 20]; [Fin 30]] ∧
        (∀ k e, row !! k = Some e →
           sample !! k
           = [[Fin 10]; [Fin 20]; [Fin 30]]
               !! Z.to_nat (e `mod` Z.of_nat
                                      (length [[Fin 10]; [Fin 20]; [Fin 30]]))) ∧
        ∀ f, f ∈ sample → f ∈ [[Fin 10]; [Fin 20]; [Fin 30]].
Proof.
  assert (length [[Fin 10]; [Fin 20]; [Fin 30]]
          = length [[Fin 1]; [Fin 2]; [Fin 3]]) as H1 by reflexivity.
  assert (1 ≤ 2 ≤ Z.of_nat (length [[Fin 1]; [Fin 2]; [Fin 3]])) as H2
    by (simpl; lia).
  split; [exact H1|]. split; [exact H2|].
  exact (resample_holds_original_slices [[Fin 1]; [Fin 2]; [Fin 3]]
           [[Fin 10]; [Fin 20]; [Fin 30]] 2 2 (world_of_draws [2; 1; 0; 2])
           H1 H2).
Defined.

(** ** More on the bootstrap runner *)

(** X7.  The guard of [ts_boot].  An empty bundle, and a bundle in which two
    members differ in time-axis length, fail the assertion on the first
    line: nothing is allocated, drawn or computed. *)
Theorem ts_boot_rejects_ragged_bundle
    func (dlist : list (list (list npfloat))) l n_samples method out indx_file w :
  dlist = [] ∨ (∃ d d', d ∈ dlist ∧ d' ∈ dlist ∧ length d ≠ length d') →
  ts_boot func dlist l n_samples method out indx_file w
  = (Raise AssertionError, w).
Proof.
  intros Hbad. unfold ts_boot.
  destruct (Nat.eqb_spec (length (remove_dups (length <$> dlist))) 1)
    as [Hone|_]; [|reflexivity].
  exfalso. destruct Hbad as [->|(d & d' & Hd & Hd' & Hne)]; [discriminate|].
  apply Hne. by apply (same_length_unique dlist Hone).
Qed.

Lemma ts_boot_rejects_ragged_bundle_witness :
  ([[[Fin 1]; [Fin 2]]; [[Fin 1]; [Fin 2]; [Fin 3]]] = []
   ∨ ∃ d d', d ∈ [[[Fin 1]; [Fin 2]]; [[Fin 1]; [Fin 2]; [Fin 3]]] ∧
             d' ∈ [[[Fin 1]; [Fin 2]]; [[Fin 1]; [Fin 2]; [Fin 3]]] ∧
             length d ≠ length d') ∧
  ts_boot first_slice [[[Fin 1]; [Fin 2]]; [[Fin 1]; [Fin 2]; [Fin 3]]]
          1 2 "circular" None None (world_of_draws [1; 0])
  = (Raise AssertionError, world_of_draws [1; 0]).
Proof.
  assert ([[[Fin 1]; [Fin 2]]; [[Fin 1]; [Fin 2]; [Fin 3]]] = []
          ∨ ∃ d d', d ∈ [[[Fin 1]; [Fin 2]]; [[Fin 1]; [Fin 2]; [Fin 3]]] ∧
                    d' ∈ [[[Fin 1]; [Fin 2]]; [[Fin 1]; [Fin 2]; [Fin 3]]] ∧
                    length d ≠ length d') as H.
  { right. exists [[Fin 1]; [Fin 2]], [[Fin 1]; [Fin 2]; [Fin 3]].
    split; [left|]. split; [right; left|]. simpl. lia. }
  split; [exact H|].
  exact (ts_boot_rejects_ragged_bundle first_slice
           [[[Fin 1]; [Fin 2]]; [[Fin 1]; [Fin 2]; [Fin 3]]]
           1 2 "circular" None None (world_of_draws [1; 0]) H).
Defined.

(** After a loop that ends normally the collection is still stored at
    [out], and the slots past the last replicate are as before. *)
Lemma ts_boot_loop_store func dlist (out : loc) indexes :
  ∀ ii w (b : list (option (list npfloat))) w',
    heap w !! out = Some b →
    ts_boot_loop func dlist out ii indexes w = (Ok (), w') →
    ∃ b', heap w' !! out = Some b' ∧
          ∀ k, (ii + length indexes ≤ k)%nat → b' !! k = b !! k.
Proof.
  induction indexes as [|boot_indx indexes IH]; intros ii w b w' Hb Hrun.
  - injection Hrun as <-. by exists b.
  - simpl in Hrun.
    apply bind_Ok in Hrun as (sample & w0 & Hs & Hrun).
    injection Hs as _ <-.
    apply bind_Ok in Hrun as ([] & w1 & Hset & Hrun).
    unfold setitem in Hset. rewrite Hb in Hset. simpl in Hset.
    destruct (b !! ii) as [old|]; [|discriminate].
    destruct (assign old (func sample)) as [v|]; [|discriminate].
    injection Hset as <-.
    edestruct (IH (S ii)) as (b' & Hb' & Hafter);
      [|exact Hrun|]; [simpl; by rewrite lookup_insert_eq|].
    exists b'. split; [exact Hb'|]. intros k Hk.
    rewrite Hafter by (simpl in Hk; lia).
    apply list_lookup_insert_ne. simpl in Hk. lia.
Qed.

(** X8.  [ts_boot] writes into the collection it is given.  When an
    existing collection is passed as [out] and the call returns, the array
    returned is what is then stored at that same place; it has as many
    slots as before, at least one per index row, and the slots past the
    last index row still hold their old contents. *)
Theorem ts_boot_fills_callers_collection
    func dlist l n_samples method (p : loc) indx_file w
    (b : list (option (list npfloat))) res w' :
  heap w !! p = Some b →
  ts_boot func dlist l n_samples method (Some p) indx_file w = (Ok res, w') →
  heap w' !! p = Some res ∧
  length res = length b ∧
  ∃ indexes : list (list Z),
    match indx_file with
    | Some saved => indexes = saved
    | None => ∃ example_tc w2,
        head dlist = Some example_tc ∧
        bootstrap_ts_indexes example_tc l n_samples "circular" w
          = (Ok indexes, w2)
    end ∧
    (length indexes ≤ length b)%nat ∧
    ∀ k, (length indexes ≤ k)%nat → res !! k = b !! k.
Proof.
  intros Hb Hrun. unfold ts_boot in Hrun.
  destruct (negb _); [discriminate|].
  apply bind_Ok in Hrun as (example_tc & w0 & Hex & Hrun).
  injection Hex as Hex <-.
  apply bind_Ok in Hrun as (q & w1 & Hq & Hrun). injection Hq as <- <-.
  apply bind_Ok in Hrun as (indexes & w2 & Hdraw & Hrun).
  apply bind_Ok in Hrun as ([] & w3 & Hloop & Hrun).
  injection Hrun as <- <-.
  assert (heap w2 = heap w) as Hheap.
  { destruct indx_file; [by injection Hdraw as _ <-|].
    pose proof (bootstrap_ts_indexes_heap example_tc l n_samples "circular" w)
      as H. by rewrite Hdraw in H. }
  assert (heap w2 !! p = Some b) as Hb2 by (by rewrite Hheap).
  destruct (ts_boot_loop_store func dlist p indexes 0 w2 b w3 Hb2 Hloop)
    as (b' & Hb' & Hafter).
  pose proof (ts_boot_loop_spec func dlist p indexes 0 w2) as Hspec.
  rewrite Hloop, Hb', Hb2 in Hspec. simpl in Hspec.
  destruct Hspec as (_ & _ & _ & Hlen & _ & Hrows).
  rewrite Hb'. simpl. split; [done|]. split; [exact Hlen|].
  exists indexes. split; [|split; [|exact Hafter]].
  - destruct indx_file; [by injection Hdraw|].
    exists example_tc, w2. split; [|exact Hdraw].
    unfold item in Hex. rewrite head_lookup.
    by destruct (dlist !! 0%nat); [injection Hex as ->|].
  - destruct (decide (length indexes ≤ length b)%nat) as [|Hgt]; [done|].
    destruct (lookup_lt_is_Some_2 indexes (length b)) as [row Hrow]; [lia|].
    destruct (Hrows _ _ Hrow) as (_ & old & _ & _ & Hold & _).
    apply lookup_lt_Some in Hold. lia.
Qed.

Lemma ts_boot_fills_callers_collection_witness :
  ∃ res w',
    heap (world_with_buffer [Some [Fin 7]; Some [Fin 8]; Some [Fin 9]] [])
      !! 1%positive = Some [Some [Fin 7]; Some [Fin 8]; Some [Fin 9]] ∧
    ts_boot first_slice paired_bundle 2 2 "circular" (Some 1%positive)
      (Some [[0; 1; 2]; [-1; 0; 1]])
      (world_with_buffer [Some [Fin 7]; Some [Fin 8]; Some [Fin 9]] [])
    = (Ok res, w') ∧
    heap w' !! 1%positive = Some res ∧
    length res = length [Some [Fin 7]; Some [Fin 8]; Some [Fin 9]] ∧
    ∃ indexes : list (list Z),
      indexes = [[0; 1; 2]; [-1; 0; 1]] ∧
      (length indexes ≤ length [Some [Fin 7]; Some [Fin 8]; Some [Fin 9]])%nat ∧
      ∀ k, (length indexes ≤ k)%nat →
           res !! k = [Some [Fin 7]; Some [Fin 8]; Some [Fin 9]] !! k.
Proof.
  eexists _, _.
  assert (heap (world_with_buffer [Some [Fin 7]; Some [Fin 8]; Some [Fin 9]] [])
            !! 1%positive = Some [Some [Fin 7]; Some [Fin 8]; Some [Fin 9]])
    as H1 by (vm_compute; reflexivity).
  split; [exact H1|]. split; [vm_compute; reflexivity|].
  refine (ts_boot_fills_callers_collection first_slice paired_bundle 2 2
            "circular" 1%positive (Some [[0; 1; 2]; [-1; 0; 1]])
            (world_with_buffer [Some [Fin 7]; Some [Fin 8]; Some [Fin 9]] [])
            _ _ _ H1 _).
  vm_compute. reflexivity.
Defined.

Lemma ignores_bind {A B} (m : M A) (k : A → M B) :
  ignores_generator m → (∀ a, ignores_generator (k a)) →
  ignores_generator (mbind k m).
Proof.
  intros Hm Hk w. destruct (Hm w) as (Ht & Hd & Hsw).
  unfold mbind, M_bind, bind.
  destruct (m w) as [[a|e] w1] eqn:E; simpl in *.
  - destruct (Hk a w1) as (Ht' & Hd' & Hsw').
    split; [congruence|]. split; [congruence|].
    intros t d. rewrite Hsw. apply Hsw'.
  - split; [done|]. split; [done|]. intros t d. by rewrite Hsw.
Qed.

Lemma ignores_pure {A} (r : result A) : ignores_generator (lift r).
Proof. by intros w. Qed.

Lemma ignores_alloc (b : list (option (list npfloat))) :
  ignores_generator (alloc b).
Proof. by intros w. Qed.

Lemma ignores_contents (p : loc) : ignores_generator (contents p).
Proof. by intros w. Qed.

Lemma ignores_setitem (p : loc) ii v : ignores_generator (setitem p ii v).
Proof.
  intros w. unfold setitem. simpl.
  destruct (default [] (heap w !! p) !! ii) as [old|]; [|done].
  by destruct (assign old v).
Qed.

Lemma ignores_ts_boot_loop func dlist (out : loc) indexes ii :
  ignores_generator (ts_boot_loop func dlist out ii indexes).
Proof.
  revert ii. induction indexes as [|boot_indx indexes IH]; intros ii.
  - by intros w.
  - simpl. apply ignores_bind; [apply ignores_pure|]. intros sample.
    apply ignores_bind; [apply ignores_setitem|]. intros []. apply IH.
Qed.

(** X9.  Replaying saved indexes.  With an index matrix loaded from a file
    [ts_boot] never touches the random generator, and its outcome, the
    results or the exception, is the same whatever state the generator is
    in: a stored matrix reproduces a run exactly. *)
Theorem saved_indexes_reproduce
    func dlist l n_samples method out (saved : list (list Z)) w :
  tape (ts_boot func dlist l n_samples method out (Some saved) w).2 = tape w ∧
  drawn (ts_boot func dlist l n_samples method out (Some saved) w).2 = drawn w ∧
  ∀ t d,
    (ts_boot func dlist l n_samples method out (Some saved)
       (World (heap w) t d)).1
    = (ts_boot func dlist l n_samples method out (Some saved) w).1.
Proof.
  assert (ignores_generator
            (ts_boot func dlist l n_samples method out (Some saved))) as H.
  { unfold ts_boot. destruct (negb _); [by intros w0|].
    apply ignores_bind; [apply ignores_pure|]. intros example_tc.
    apply ignores_bind.
    { destruct out; [by intros w0|apply ignores_alloc]. }
    intros p. apply ignores_bind; [by intros w0|]. intros indexes.
    apply ignores_bind; [apply ignores_ts_boot_loop|]. intros [].
    apply ignores_contents. }
  destruct (H w) as (Ht & Hd & Hsw). split; [exact Ht|]. split; [exact Hd|].
  intros t d. by rewrite Hsw.
Qed.

(** X10.  Saved indexes are checked, not wrapped.  If [ts_boot] returns with
    a loaded index matrix, every entry of the matrix lies in [[-n, n)] for
    the time-axis length [n] of every member: an entry outside that range
    ends the call with an exception instead of being reduced modulo [n]. *)
Theorem saved_indexes_must_be_in_range
    func (dlist : list (list (list npfloat))) l n_samples method out
    (saved : list (list Z)) w res w' :
  ts_boot func dlist l n_samples method out (Some saved) w = (Ok res, w') →
  ∀ row e d, row ∈ saved → e ∈ row → d ∈ dlist →
    - Z.of_nat (length d) ≤ e < Z.of_nat (length d).
Proof.
  intros Hrun row e d Hrow He Hd.
  apply ts_boot_spec in Hrun
    as (example_tc & p & w1 & w2 & indexes & _ & _ & _ & Hdraw & _ & Hrows).
  injection Hdraw as <- _.
  apply list_elem_of_lookup in Hrow as [i Hi].
  destruct (Hrows i row Hi) as (sample & _ & _ & Hs & _).
  apply for_each_Forall2 in Hs.
  apply list_elem_of_lookup in Hd as [j Hj].
  destruct (Forall2_lookup_l _ _ _ _ _ Hs Hj) as (s & _ & Hf).
  unfold fancy_index in Hf. apply for_each_Forall2 in Hf.
  apply list_elem_of_lookup in He as [k Hk].
  destruct (Forall2_lookup_l _ _ _ _ _ Hf Hk) as (f & _ & Ht).
  by apply take_index_inv in Ht as [? _].
Qed.

Lemma saved_indexes_must_be_in_range_witness :
  ∃ res w',
    ts_boot first_slice paired_bundle 2 2 "circular" None
      (Some [[0; 1; 2]; [-3; 0; 1]]) (world_of_draws []) = (Ok res, w') ∧
    ∀ row e d, row ∈ [[0; 1; 2]; [-3; 0; 1]] → e ∈ row → d ∈ paired_bundle →
      - Z.of_nat (length d) ≤ e < Z.of_nat (length d).
Proof.
  eexists _, _. split; [vm_compute; reflexivity|].
  refine (saved_indexes_must_be_in_range first_slice paired_bundle 2 2
            "circular" None [[0; 1; 2]; [-3; 0; 1]] (world_of_draws [])
            _ _ _).
  vm_compute. reflexivity.
Defined.

(** X11.  [ts_boot] touches only its output collection.  Whatever the
    arguments and on every exit, each object that existed before the call,
    other than the collection passed as [out], is unchanged; with
    [out=None] that is every existing object. *)
Theorem ts_boot_touches_only_out
    func dlist l n_samples method out indx_file w (q : loc) :
  q ∈ dom (heap w) →
  (out ≠ Some q →
   heap (ts_boot func dlist l n_samples method out indx_file w).2 !! q
   = heap w !! q) ∧
  heap (ts_boot func dlist l n_samples method None indx_file w).2 !! q
  = heap w !! q.
Proof.
  intros Hq. split; [intros Hout|]; by apply ts_boot_frame.
Qed.

Lemma ts_boot_touches_only_out_witness :
  1%positive ∈ dom (heap (world_with_buffer [Some [Fin 7]] [2; 1; 0; 2])) ∧
  (None ≠ Some 1%positive →
   heap (ts_boot first_slice paired_bundle 2 2 "circular" None None
           (world_with_buffer [Some [Fin 7]] [2; 1; 0; 2])).2 !! 1%positive
   = heap (world_with_buffer [Some [Fin 7]] [2; 1; 0; 2]) !! 1%positive) ∧
  heap (ts_boot first_slice paired_bundle 2 2 "circular" None None
          (world_with_buffer [Some [Fin 7]] [2; 1; 0; 2])).2 !! 1%positive
  = heap (world_with_buffer [Some [Fin 7]] [2; 1; 0; 2]) !! 1%positive.
Proof.
  assert (1%positive
            ∈ dom (heap (world_with_buffer [Some [Fin 7]] [2; 1; 0; 2]))) as H
    by (vm_compute; reflexivity).
  split; [exact H|].
  exact (ts_boot_touches_only_out first_slice paired_bundle 2 2 "circular"
           None None (world_with_buffer [Some [Fin 7]] [2; 1; 0; 2])
           1%positive H).
Defined.

(** ** More on the two-group difference *)

(** No replicate is counted by both comparisons. *)
Lemma sign_exclusive (d : list npfloat) :
  (np_sum ((λ x, fgt x (Fin 0)) <$> d) + np_sum ((λ x, fle x (Fin 0)) <$> d)
   ≤ length d)%nat.
Proof.
  induction d as [|x d IH]; [reflexivity|].
  rewrite !fmap_cons, !np_sum_cons. simpl length.
  assert (fgt x (Fin 0) && fle x (Fin 0) = false) as Hx.
  { destruct x as [| |q|]; try done. unfold fgt. simpl.
    by destruct (Qlt_le_dec 0 q). }
  destruct (fgt x (Fin 0)), (fle x (Fin 0)); try discriminate Hx; lia.
Qed.

Lemma np_mean_fractions (d : list npfloat) :
  d ≠ [] →
  ∃ p q,
    np_mean ((λ x, fgt x (Fin 0)) <$> d) = Fin p ∧
    np_mean ((λ x, fle x (Fin 0)) <$> d) = Fin q ∧
    (0 <= p)%Q ∧ (0 <= q)%Q ∧ (p + q <= 1)%Q.
Proof.
  intros Hne. pose proof (sign_exclusive d) as Hsum.
  destruct d as [|x d]; [done|].
  eexists _, _. split; [reflexivity|]. split; [reflexivity|].
  rewrite !length_fmap.
  set (g := np_sum ((λ x, fgt x (Fin 0)) <$> x :: d)) in *.
  set (k := np_sum ((λ x, fle x (Fin 0)) <$> x :: d)) in *.
  set (n := Pos.of_nat (length (x :: d))).
  assert (Z.of_nat g + Z.of_nat k ≤ Z.pos n) as Hn.
  { subst n. simpl length in *. rewrite <- Pos.of_nat_succ.
    rewrite Zpos_P_of_succ_nat. lia. }
  clearbody n g k. unfold Qle, Qplus. simpl Qnum. simpl Qden.
  split; [lia|]. split; [lia|]. rewrite Pos2Z.inj_mul. nia.
Qed.

(** X12.  The p-values are fractions of the replicates.  When the call
    returns with at least one replicate, at every spatial location [p_gt]
    and [p_ltq] are numbers between 0 and 1 whose sum is at most 1: no
    replicate is counted twice, and one whose difference is NaN is counted
    by neither. *)
Theorem p_values_are_fractions calc A B l n_reps out_arr w res w' :
  run_boot_within_isc_diff calc A B l n_reps out_arr w = (Ok res, w') →
  (1 ≤ n_reps)%nat →
  ∀ j, (j < length (distA res))%nat →
    ∃ p q,
      p_gt res !! j = Some (Fin p) ∧ p_ltq res !! j = Some (Fin q) ∧
      (0 <= p)%Q ∧ (0 <= q)%Q ∧ (p + q <= 1)%Q.
Proof.
  intros Hrun Hn j Hj.
  apply run_boot_spec in Hrun
    as (m & dA & dB & HlA & HlB & HA & HB & Hgt & Hle).
  assert (length (distA res) = m) as HmA
    by (rewrite HA; unfold transpose; by rewrite length_fmap, length_seq).
  assert (length (distB res) = m) as HmB
    by (rewrite HB; unfold transpose; by rewrite length_fmap, length_seq).
  destruct (lookup_lt_is_Some_2 (distA res) j) as [a Ha]; [lia|].
  destruct (lookup_lt_is_Some_2 (distB res) j) as [b Hb]; [lia|].
  assert (length a = n_reps) as Hla
    by (rewrite HA in Ha; apply length_transpose_row in Ha; congruence).
  assert (length b = n_reps) as Hlb
    by (rewrite HB in Hb; apply length_transpose_row in Hb; congruence).
  destruct (np_mean_fractions (zip_with fsub a b))
    as (p & q & Hp & Hq & H0p & H0q & Hpq).
  { intros Hnil. apply (f_equal length) in Hnil.
    rewrite length_zip_with in Hnil. simpl in Hnil. lia. }
  assert (zip_with (zip_with fsub) (distA res) (distB res) !! j
          = Some (zip_with fsub a b)) as Hz
    by (apply lookup_zip_with_Some; by exists a, b).
  exists p, q. split; [|split; [|done]].
  - rewrite Hgt, list_lookup_fmap, Hz.
    cbn [fmap option_fmap option_map]. by rewrite Hp.
  - rewrite Hle, list_lookup_fmap, Hz.
    cbn [fmap option_fmap option_map]. by rewrite Hq.
Qed.

Lemma p_values_are_fractions_witness :
  (1 ≤ 1)%nat ∧
  ∃ res w',
    run_boot_within_isc_diff first_slice thresholded_group measured_group
      2 1 None (world_of_draws [2; 1; 0; 2]) = (Ok res, w') ∧
    ∀ j, (j < length (distA res))%nat →
      ∃ p q,
        p_gt res !! j = Some (Fin p) ∧ p_ltq res !! j = Some (Fin q) ∧
        (0 <= p)%Q ∧ (0 <= q)%Q ∧ (p + q <= 1)%Q.
Proof.
  assert (1 ≤ 1)%nat as H by lia.
  split; [exact H|]. eexists _, _.
  split; [vm_compute; reflexivity|].
  refine (p_values_are_fractions first_slice thresholded_group measured_group
            2 1 None (world_of_draws [2; 1; 0; 2]) _ _ _ H).
  vm_compute. reflexivity.
Defined.

(** X13.  No replicates.  With [n_reps = 0] a call that returns holds two
    distributions without entries, and every p-value is NaN, the mean of an
    empty axis. *)
Theorem no_replicates_give_nan calc A B l out_arr w res w' :
  run_boot_within_isc_diff calc A B l 0 out_arr w = (Ok res, w') →
  Forall (λ a, a = []) (distA res) ∧ Forall (λ b, b = []) (distB res) ∧
  length (p_gt res) = length (distA res) ∧
  length (p_ltq res) = length (distA res) ∧
  Forall (λ p, p = NaN) (p_gt res) ∧ Forall (λ p, p = NaN) (p_ltq res).
Proof.
  intros Hrun.
  apply run_boot_spec in Hrun
    as (m & dA & dB & HlA & HlB & HA & HB & Hgt & Hle).
  apply nil_length_inv in HlA, HlB. subst dA dB.
  assert (∀ k, transpose k [] = replicate k []) as Ht.
  { intros k. unfold transpose. simpl.
    assert (∀ s, (λ _ : nat, @nil npfloat) <$> seq s k = replicate k []) as Hs.
    { induction k as [|k IH]; intros s; [reflexivity|]. simpl. f_equal.
      apply IH. }
    apply Hs. }
  rewrite Ht in HA, HB.
  assert (zip_with (zip_with fsub) (distA res) (distB res) = replicate m [])
    as Hz.
  { rewrite HA, HB. clear. induction m as [|m IH]; [reflexivity|].
    simpl. by rewrite IH. }
  rewrite Hz in Hgt, Hle.
  rewrite Hgt, Hle, HA, HB, !length_fmap, !length_replicate.
  repeat split; try (apply Forall_fmap); by apply Forall_replicate.
Qed.

Lemma no_replicates_give_nan_witness :
  ∃ res w',
    run_boot_within_isc_diff first_slice measured_group measured_group
      2 0 None (world_of_draws []) = (Ok res, w') ∧
    Forall (λ a, a = []) (distA res) ∧ Forall (λ b, b = []) (distB res) ∧
    length (p_gt res) = length (distA res) ∧
    length (p_ltq res) = length (distA res) ∧
    Forall (λ p, p = NaN) (p_gt res) ∧ Forall (λ p, p = NaN) (p_ltq res).
Proof.
  eexists _, _. split; [vm_compute; reflexivity|].
  refine (no_replicates_give_nan first_slice measured_group measured_group
            2 None (world_of_draws []) _ _ _).
  vm_compute. reflexivity.
Defined.

(** X14.  Shape of the result.  When the call returns, group [A] has a first
    member; both distributions have one row per spatial location of that
    member, for group [B] as well, and every row has [n_reps] entries, the
    replicate axis being last; there is one p-value of each kind per
    location.  An empty group [A] ends the call with [IndexError] before
    anything is allocated or drawn. *)
Theorem difference_result_shape calc A B l n_reps out_arr w :
  (∀ res w',
     run_boot_within_isc_diff calc A B l n_reps out_arr w = (Ok res, w') →
     ∃ A0 : list (list npfloat),
       head A = Some A0 ∧
       length (distA res) = match A0 with [] => 0%nat | f :: _ => length f end ∧
       length (distB res) = length (distA res) ∧
       Forall (λ a, length a = n_reps) (distA res) ∧
       Forall (λ b, length b = n_reps) (distB res) ∧
       length (p_gt res) = length (distA res) ∧
       length (p_ltq res) = length (distA res)) ∧
  (A = [] →
   run_boot_within_isc_diff calc A B l n_reps out_arr w
   = (Raise IndexError, w)).
Proof.
  split; [|by intros ->].
  intros res w' Hrun.
  pose proof (run_boot_spec _ _ _ _ _ _ _ _ _ Hrun)
    as (m & dA & dB & HlA & HlB & HA & HB & Hgt & Hle).
  assert (length (distA res) = m) as HmA
    by (rewrite HA; unfold transpose; by rewrite length_fmap, length_seq).
  assert (length (distB res) = m) as HmB
    by (rewrite HB; unfold transpose; by rewrite length_fmap, length_seq).
  unfold run_boot_within_isc_diff in Hrun.
  apply bind_Ok in Hrun as (A0 & w0 & HA0 & Hrun).
  exists A0. split.
  { injection HA0 as HA0 _. unfold item in HA0. rewrite head_lookup.
    by destruct (A !! 0%nat); [injection HA0 as ->|]. }
  split.
  { do 8 (apply bind_Ok in Hrun as (? & ? & _ & Hrun)).
    injection Hrun as <- _. simpl. unfold transpose.
    by rewrite length_fmap, length_seq. }
  split; [congruence|].
  split; [|split; [|split]].
  - apply Forall_forall. intros a [j Ha]%list_elem_of_lookup.
    rewrite HA in Ha. apply length_transpose_row in Ha. congruence.
  - apply Forall_forall. intros b [j Hb]%list_elem_of_lookup.
    rewrite HB in Hb. apply length_transpose_row in Hb. congruence.
  - rewrite Hgt, length_fmap, length_zip_with. lia.
  - rewrite Hle, length_fmap, length_zip_with. lia.
Qed.

Lemma difference_result_shape_witness :
  ∃ res w',
    run_boot_within_isc_diff first_slice measured_group paired_bundle 2 2 None
      (world_of_draws [2; 1; 0; 2; 1; 1; 0; 0]) = (Ok res, w') ∧
    (∃ A0 : list (list npfloat),
       head measured_group = Some A0 ∧
       length (distA res) = match A0 with [] => 0%nat | f :: _ => length f end ∧
       length (distB res) = length (distA res) ∧
       Forall (λ a, length a = 2%nat) (distA res) ∧
       Forall (λ b, length b = 2%nat) (distB res) ∧
       length (p_gt res) = length (distA res) ∧
       length (p_ltq res) = length (distA res)) ∧
    (@nil (list (list npfloat)) = [] →
     run_boot_within_isc_diff first_slice [] paired_bundle 2 2 None
       (world_of_draws [2; 1; 0; 2; 1; 1; 0; 0])
     = (Raise IndexError, world_of_draws [2; 1; 0; 2; 1; 1; 0; 0])).
Proof.
  eexists _, _. split; [vm_compute; reflexivity|]. split.
  - refine (proj1 (difference_result_shape first_slice measured_group
                     paired_bundle 2 2 None
                     (world_of_draws [2; 1; 0; 2; 1; 1; 0; 0])) _ _ _).
    vm_compute. reflexivity.
  - exact (proj2 (difference_result_shape first_slice [] paired_bundle 2 2 None
                    (world_of_draws [2; 1; 0; 2; 1; 1; 0; 0]))).
Defined.

(** ** More on the block-length selector *)

Lemma length_clamp_round Bmax B : length (clamp_round Bmax B) = length B.
Proof. unfold clamp_round. by rewrite !length_fmap. Qed.

(** X15.  One block length per series.  A 1D input is handled as a single
    column; when [b_star] returns, under either [round] setting, the vector
    has exactly one component per column; a 2D input without columns gives
    the empty vector; more than two axes are refused with the exception of
    line 35. *)
Theorem b_star_one_length_per_series
    acf block_estimate Kn mmax Bmax rho_k_crit round :
  (∀ x, b_star acf block_estimate (Array1 x) Kn mmax Bmax rho_k_crit round
        = b_star acf block_estimate (Array2 [x]) Kn mmax Bmax rho_k_crit round) ∧
  (∀ columns B,
     b_star acf block_estimate (Array2 columns) Kn mmax Bmax rho_k_crit round
       = Ok B →
     length B = length columns) ∧
  b_star acf block_estimate (Array2 []) Kn mmax Bmax rho_k_crit round = Ok [] ∧
  (∀ ndim, (2 < ndim)%nat →
     b_star acf block_estimate (ArrayN ndim) Kn mmax Bmax rho_k_crit round
     = Raise (Exception_ "data may not be greater than 2d")).
Proof.
  split; [done|]. split; [|split].
  - intros columns B HB.
    apply b_star_inv in HB as (cols & raw & [[? _]|Hc] & Hraw & ->);
      [discriminate|].
    injection Hc as ->. apply Forall2_length in Hraw.
    destruct round; [rewrite length_clamp_round|]; done.
  - by destruct round.
  - intros ndim Hn. unfold b_star.
    by destruct (Nat.ltb_spec 2 ndim); [|lia].
Qed.

Lemma b_star_one_length_per_series_witness :
  b_star acf_short_pulse estimate_short_pulse (Array2 [short_pulse; short_pulse])
         5 8 (Fin 3) (Fin (6585 # 10000)) true
    = Ok [Fin (inject_Z 1); Fin (inject_Z 1)] ∧
  length [Fin (inject_Z 1); Fin (inject_Z 1)]
    = length [short_pulse; short_pulse] ∧
  (2 < 3)%nat ∧
  b_star acf_short_pulse estimate_short_pulse (ArrayN 3)
         5 8 (Fin 3) (Fin (6585 # 10000)) true
    = Raise (Exception_ "data may not be greater than 2d").
Proof.
  pose proof (b_star_one_length_per_series acf_short_pulse estimate_short_pulse
                5 8 (Fin 3) (Fin (6585 # 10000)) true) as (_ & Hlen & _ & Hdim).
  assert (b_star acf_short_pulse estimate_short_pulse
                 (Array2 [short_pulse; short_pulse])
                 5 8 (Fin 3) (Fin (6585 # 10000)) true
          = Ok [Fin (inject_Z 1); Fin (inject_Z 1)]) as H1 by reflexivity.
  assert (2 < 3)%nat as H2 by lia.
  split; [exact H1|]. split; [exact (Hlen _ _ H1)|]. split; [exact H2|].
  exact (Hdim 3%nat H2).
Defined.

(** X16.  The lower clamp is applied last.  With [round=True] and a [Bmax]
    below 1, every component that is not NaN comes out as exactly 1, above
    [Bmax]: line 70 overrides what line 69 did. *)
Theorem lower_clamp_wins
    acf block_estimate data Kn mmax (bmax : Q) rho_k_crit B :
  (bmax < 1)%Q →
  b_star acf block_estimate data Kn mmax (Fin bmax) rho_k_crit true = Ok B →
  ∀ b, b ∈ B → b = NaN ∨ b = Fin 1.
Proof.
  intros Hb HB b Hin.
  apply b_star_inv in HB as (columns & raw & _ & _ & ->).
  unfold clamp_round in Hin. rewrite <- !list_fmap_compose in Hin.
  apply list_elem_of_fmap in Hin as (b0 & -> & _). simpl.
  destruct b0 as [| |q|]; simpl.
  - by left.
  - by right.
  - right. unfold fgt. simpl.
    destruct (Qlt_le_dec bmax q) as [Hgt|Hle]; simpl.
    + by destruct (Qlt_le_dec bmax 1) as [_|Hge]; [|destruct (Qlt_not_le _ _ Hb)].
    + destruct (Qlt_le_dec q 1) as [_|Hge]; [done|].
      destruct (Qlt_not_le _ _ Hb). by apply (Qle_trans _ q).
  - right. unfold fgt. simpl.
    by destruct (Qlt_le_dec bmax 1) as [_|Hge]; [|destruct (Qlt_not_le _ _ Hb)].
Qed.

Lemma lower_clamp_wins_witness :
  (1 # 2 < 1)%Q ∧
  b_star acf_short_pulse estimate_short_pulse (Array1 short_pulse) 5 8
         (Fin (1 # 2)) (Fin (6585 # 10000)) true = Ok [Fin 1] ∧
  ∀ b, b ∈ [Fin 1] → b = NaN ∨ b = Fin 1.
Proof.
  assert (1 # 2 < 1)%Q as H by reflexivity.
  split; [exact H|]. split; [reflexivity|].
  exact (lower_clamp_wins acf_short_pulse estimate_short_pulse
           (Array1 short_pulse) 5 8 (1 # 2) (Fin (6585 # 10000)) [Fin 1]
           H eq_refl).
Defined.

Lemma np_sum_le_length (mask : list bool) : (np_sum mask ≤ length mask)%nat.
Proof.
  induction mask as [|b mask IH]; [reflexivity|].
  rewrite np_sum_cons. destruct b; simpl; lia.
Qed.

Lemma np_sum_all (mask : list bool) :
  np_sum mask = length mask ↔ Forall (λ b, b = true) mask.
Proof.
  induction mask as [|b mask IH]; [by split; [constructor|]|].
  rewrite np_sum_cons. pose proof (np_sum_le_length mask). split.
  - intros H'. destruct b; simpl in H'; [|lia].
    constructor; [done|]. apply IH. lia.
  - intros [-> Hm]%Forall_cons. apply IH in Hm. simpl. lia.
Qed.

(** A window counts [Kn] insignificant lags exactly when it lies inside the
    array and all its entries are set. *)
Lemma window_full (insig : list bool) (Kn jj : nat) :
  Nat.eqb (np_sum (take Kn (drop jj insig))) Kn = true ↔
  ∀ i, (i < Kn)%nat → insig !! (jj + i)%nat = Some true.
Proof.
  rewrite Nat.eqb_eq. split.
  - intros Hsum i Hi.
    pose proof (np_sum_le_length (take Kn (drop jj insig))) as Hle.
    assert (length (take Kn (drop jj insig)) = Kn) as Hlen
      by (rewrite length_take in *; lia).
    assert (Forall (λ b, b = true) (take Kn (drop jj insig))) as Hall
      by (apply np_sum_all; congruence).
    destruct (lookup_lt_is_Some_2 (take Kn (drop jj insig)) i) as [b Hb];
      [lia|].
    rewrite Forall_forall in Hall.
    rewrite (Hall b ltac:(by eapply list_elem_of_lookup_2)) in Hb.
    by rewrite lookup_take_lt, lookup_drop in Hb.
  - intros Hall.
    assert (take Kn (drop jj insig) = replicate Kn true) as ->.
    { apply list_eq. intros i. destruct (decide (i < Kn)%nat) as [Hi|Hi].
      - rewrite lookup_take_lt, lookup_drop, (Hall i Hi) by done.
        symmetry. by apply lookup_replicate_2.
      - rewrite lookup_take_ge by lia. symmetry.
        apply lookup_replicate_None. lia. }
    transitivity (length (replicate Kn true)); [|apply length_replicate].
    apply np_sum_all, Forall_replicate. done.
Qed.

Lemma np_any_false (mask : list bool) :
  np_any mask = false → Forall (λ b, b = false) mask.
Proof.
  induction mask as [|b mask IH]; [constructor|].
  unfold np_any. simpl. destruct b; [discriminate|].
  intros H. constructor; [done|]. by apply IH.
Qed.

Lemma np_any_true (mask : list bool) i :
  mask !! i = Some true → np_any mask = true.
Proof.
  intros Hi. destruct (np_any mask) eqn:E; [done|].
  apply np_any_false in E. rewrite Forall_forall in E.
  by pose proof (E true ltac:(by eapply list_elem_of_lookup_2)).
Qed.

(** X17.  What a numeric [mhat] means.  When lines 50-56 leave a number in
    [mhat], it is at least 1, and [M] on line 58 is [min(2*mhat, mmax)].
    Either [mhat - 1] is the first window start among [0..mmax-Kn] whose
    [Kn] lags all lie inside [rho_k] with [|rho| < rho_k_crit]; or no such
    window exists, no lag at all has [|rho| > rho_k_crit], and [mhat] is
    1. *)
Theorem numeric_mhat_meaning rho_k rho_k_crit Kn mmax m :
  mhat_of rho_k rho_k_crit Kn mmax = Ok (Scalar m) →
  1 ≤ m ∧
  select_M (Scalar m) mmax = Ok (Scalar (Z.min (2 * m) (Z.of_nat mmax))) ∧
  ((m ≤ Z.of_nat (mmax + 1 - Kn) ∧
    (∀ i, (i < Kn)%nat →
       ∃ r, rho_k !! (Z.to_nat (m - 1) + i)%nat = Some r ∧
            flt (fabs r) rho_k_crit = true) ∧
    (∀ jj, (jj < Z.to_nat (m - 1))%nat →
       ¬ ∀ i, (i < Kn)%nat →
           ∃ r, rho_k !! (jj + i)%nat = Some r ∧
                flt (fabs r) rho_k_crit = true))
   ∨ (m = 1 ∧ Forall (λ r, fgt (fabs r) rho_k_crit = false) rho_k ∧
      ∀ jj, (jj < mmax + 1 - Kn)%nat →
        ¬ ∀ i, (i < Kn)%nat →
            ∃ r, rho_k !! (jj + i)%nat = Some r ∧
                 flt (fabs r) rho_k_crit = true)).
Proof.
  intros Hm.
  pose proof (mhat_of_branches rho_k rho_k_crit Kn mmax) as Hbr.
  set (insig := (λ r, flt (fabs r) rho_k_crit) <$> rho_k) in *.
  set (full := (λ jj, Nat.eqb (np_sum (take Kn (drop jj insig))) Kn)
                 <$> seq 0 (mmax + 1 - Kn)) in *.
  set (sig := (λ r, fgt (fabs r) rho_k_crit) <$> rho_k) in *.
  simpl in Hbr. destruct Hbr as (H1 & H2 & H3).
  assert (∀ jj, (∀ i, (i < Kn)%nat → insig !! (jj + i)%nat = Some true) ↔
                (∀ i, (i < Kn)%nat →
                   ∃ r, rho_k !! (jj + i)%nat = Some r ∧
                        flt (fabs r) rho_k_crit = true)) as Hwin.
  { intros jj. split; intros H i Hi; specialize (H i Hi).
    - unfold insig in H. rewrite list_lookup_fmap in H.
      destruct (rho_k !! (jj + i)%nat) as [r|]; [|discriminate].
      exists r. split; [done|]. by injection H.
    - destruct H as (r & Hr & Hf). unfold insig.
      by rewrite list_lookup_fmap, Hr; simpl; rewrite Hf. }
  assert (∀ jj b, full !! jj = Some b →
            (jj < mmax + 1 - Kn)%nat ∧
            b = Nat.eqb (np_sum (take Kn (drop jj insig))) Kn) as Hfull.
  { intros jj b Hb. unfold full in Hb. rewrite list_lookup_fmap in Hb.
    destruct (seq 0 (mmax + 1 - Kn) !! jj) as [k|] eqn:Hk; [|discriminate].
    apply lookup_seq in Hk as [-> ?]. injection Hb as <-. done. }
  assert (select_M (Scalar m) mmax
          = Ok (Scalar (Z.min (2 * m) (Z.of_nat mmax)))) as HM.
  { simpl. do 2 f_equal. destruct (Z.ltb_spec (Z.of_nat mmax) (2 * m)); lia. }
  destruct (np_any full) eqn:Hany.
  - destruct (H1 Hany) as (jj & Hjj & Htrue & Hbefore).
    rewrite Hjj in Hm. injection Hm as <-.
    destruct (Hfull _ _ Htrue) as [Hlt Heq].
    split; [lia|]. split; [exact HM|]. left.
    replace (Z.to_nat (Z.of_nat jj + 1 - 1)) with jj by lia.
    split; [lia|]. split.
    + apply (proj1 (Hwin jj)), (proj1 (window_full insig Kn jj)). done.
    + intros k Hk Hall. specialize (Hbefore k Hk).
      destruct (Hfull _ _ Hbefore) as [_ Heq'].
      pose proof (proj2 (window_full insig Kn k) (proj2 (Hwin k) Hall)).
      congruence.
  - assert (∀ jj, (jj < mmax + 1 - Kn)%nat →
              ¬ ∀ i, (i < Kn)%nat →
                  ∃ r, rho_k !! (jj + i)%nat = Some r ∧
                       flt (fabs r) rho_k_crit = true) as Hnone.
    { intros jj Hjj Hall0.
      pose proof (proj2 (window_full insig Kn jj) (proj2 (Hwin jj) Hall0))
        as Hall.
      apply np_any_false in Hany. rewrite Forall_forall in Hany.
      assert (full !! jj = Some true) as Hf.
      { unfold full. rewrite list_lookup_fmap, lookup_seq_lt by done.
        simpl. by rewrite Hall. }
      by pose proof (Hany true ltac:(by eapply list_elem_of_lookup_2)). }
    case_eq (np_any sig); intros Hsig.
    + rewrite (H2 Hany Hsig) in Hm. discriminate.
    + rewrite (H3 Hany Hsig) in Hm. injection Hm as <-.
      split; [lia|]. split; [exact HM|]. right. split; [done|].
      split; [|exact Hnone].
      apply np_any_false in Hsig. unfold sig in Hsig.
      by apply Forall_fmap in Hsig.
Qed.

Lemma numeric_mhat_meaning_witness :
  mhat_of (tail (acf_short_pulse short_pulse)) (Fin (6585 # 10000)) 5 8
    = Ok (Scalar 1) ∧
  1 ≤ 1 ∧
  select_M (Scalar 1) 8 = Ok (Scalar (Z.min (2 * 1) (Z.of_nat 8))).
Proof.
  assert (mhat_of (tail (acf_short_pulse short_pulse)) (Fin (6585 # 10000)) 5 8
          = Ok (Scalar 1)) as H by reflexivity.
  split; [exact H|].
  destruct (numeric_mhat_meaning _ _ _ _ _ H) as (H1 & H2 & _).
  split; [exact H1|exact H2].
Defined.

(** The three-way choice of lines 50-56 in the words of the source:
    [np.any(num_insig == Kn)], then
    [np.any(np.abs(rho_k) > rho_k_crit)]. *)
Lemma mhat_of_cases rho_k rho_k_crit Kn mmax :
  let full := (λ c, Nat.eqb c Kn) <$> num_insig rho_k rho_k_crit Kn mmax in
  let sig := (λ r, fgt (fabs r) rho_k_crit) <$> rho_k in
  mhat_of rho_k rho_k_crit Kn mmax
  = if np_any full then
      first ← item 0 (np_where full);
      jj ← item 0 first;
      Ok (Scalar (Z.of_nat jj + 1))
    else if np_any sig then
      Ok (Indexes ((λ i, Z.of_nat i + 1) <$> nonzero_from 0 sig))
    else Ok (Scalar 1).
Proof. reflexivity. Qed.

Lemma length_nonzero_from (mask : list bool) i :
  length (nonzero_from i mask) = np_sum mask.
Proof.
  revert i. induction mask as [|b mask IH]; intros i; [reflexivity|].
  rewrite np_sum_cons. destruct b; simpl; by rewrite IH.
Qed.

Lemma nonzero_from_elem (mask : list bool) i k :
  mask !! k = Some true → (i + k)%nat ∈ nonzero_from i mask.
Proof.
  revert i k. induction mask as [|b mask IH]; intros i [|k] Hk;
    try discriminate.
  - injection Hk as ->. simpl. rewrite Nat.add_0_r. apply list_elem_of_here.
  - simpl in Hk. replace (i + S k)%nat with (S i + k)%nat by lia.
    pose proof (IH (S i) k Hk) as Hin.
    cbn [nonzero_from]. destruct b; [apply list_elem_of_further|]; exact Hin.
Qed.

Lemma np_sum_pos (mask : list bool) i :
  mask !! i = Some true → (1 ≤ np_sum mask)%nat.
Proof.
  intros Hi. rewrite <- (length_nonzero_from mask 0).
  pose proof (nonzero_from_elem mask 0 i Hi) as Hin.
  destruct (nonzero_from 0 mask); [by apply elem_of_nil in Hin|simpl; lia].
Qed.

Lemma np_sum_two (mask : list bool) i j :
  i ≠ j → mask !! i = Some true → mask !! j = Some true →
  (2 ≤ np_sum mask)%nat.
Proof.
  revert i j. induction mask as [|b mask IH]; intros i j Hij Hi Hj;
    [discriminate|].
  rewrite np_sum_cons. destruct i as [|i], j as [|j]; [done| | |].
  - injection Hi as ->. pose proof (np_sum_pos mask j Hj). simpl. lia.
  - injection Hj as ->. pose proof (np_sum_pos mask i Hi). simpl. lia.
  - assert (i ≠ j) as Hij' by congruence.
    pose proof (IH i j Hij' Hi Hj). lia.
Qed.

Lemma select_M_several ms mmax :
  (2 ≤ length ms)%nat → select_M (Indexes ms) mmax = Raise ValueError.
Proof. destruct ms as [|a [|b ms]]; simpl; [lia..|done]. Qed.

(** X18.  Two significant lags and no quiet window make [b_star] fail.
    Whenever [np.any(num_insig == Kn)] is false and two different lags of
    the first series have [|rho| > rho_k_crit], line 55 leaves in [mhat] an
    array of at least two elements (holding both lags, counted from 1),
    [min(2*mhat, mmax)] on line 58 raises [ValueError], and so does
    [b_star], for a 1D input and for a 2D input with that first column,
    whatever [round], [Bmax] and the other columns are. *)
Theorem several_significant_lags_raise
    (acf : series → list npfloat)
    (block_estimate : series → mval → result npfloat)
    (x : series) (rest : list series) (Kn mmax : nat)
    (Bmax rho_k_crit : npfloat) (round : bool) (i j : nat) (ri rj : npfloat) :
  let rho_k := tail (acf x) in
  np_any ((λ c, Nat.eqb c Kn) <$> num_insig rho_k rho_k_crit Kn mmax)
    = false →
  i ≠ j →
  rho_k !! i = Some ri → fgt (fabs ri) rho_k_crit = true →
  rho_k !! j = Some rj → fgt (fabs rj) rho_k_crit = true →
  (∃ ms, mhat_of rho_k rho_k_crit Kn mmax = Ok (Indexes ms) ∧
         (2 ≤ length ms)%nat ∧
         Z.of_nat i + 1 ∈ ms ∧ Z.of_nat j + 1 ∈ ms ∧
         select_M (Indexes ms) mmax = Raise ValueError) ∧
  b_star acf block_estimate (Array1 x) Kn mmax Bmax rho_k_crit round
    = Raise ValueError ∧
  b_star acf block_estimate (Array2 (x :: rest)) Kn mmax Bmax rho_k_crit
         round
    = Raise ValueError.
Proof.
  intros rho_k Hquiet Hij Hi Hsi Hj Hsj.
  set (sig := (λ r, fgt (fabs r) rho_k_crit) <$> rho_k).
  assert (sig !! i = Some true) as Hi'
    by (unfold sig; by rewrite list_lookup_fmap, Hi; simpl; rewrite Hsi).
  assert (sig !! j = Some true) as Hj'
    by (unfold sig; by rewrite list_lookup_fmap, Hj; simpl; rewrite Hsj).
  assert (mhat_of rho_k rho_k_crit Kn mmax
          = Ok (Indexes ((λ i, Z.of_nat i + 1) <$> nonzero_from 0 sig)))
    as Hm.
  { rewrite mhat_of_cases. cbv zeta. rewrite Hquiet.
    fold sig. by rewrite (np_any_true sig i Hi'). }
  set (ms := (λ i, Z.of_nat i + 1) <$> nonzero_from 0 sig) in *.
  assert (2 ≤ length ms)%nat as Hlen.
  { unfold ms. rewrite length_fmap, length_nonzero_from.
    by eapply np_sum_two. }
  pose proof (select_M_several _ mmax Hlen) as HM.
  split; [|split].
  - eexists. split; [exact Hm|]. split; [exact Hlen|].
    split; [|split; [|exact HM]].
    + apply (list_elem_of_fmap_2 (λ i, Z.of_nat i + 1)).
      apply (nonzero_from_elem sig 0 i Hi').
    + apply (list_elem_of_fmap_2 (λ i, Z.of_nat i + 1)).
      apply (nonzero_from_elem sig 0 j Hj').
  - unfold b_star. cbn [mbind result_bind for_each]. fold rho_k.
    rewrite Hm. cbn [mbind result_bind]. by rewrite HM.
  - unfold b_star. cbn [mbind result_bind for_each]. fold rho_k.
    rewrite Hm. cbn [mbind result_bind]. by rewrite HM.
Qed.

Lemma several_significant_lags_raise_witness :
  b_star acf_alternating estimate_short_pulse (Array1 alternating) 5 15
         (Fin 30) (Fin (2772 # 10000)) false
    = Raise ValueError.
Proof.
  apply (several_significant_lags_raise acf_alternating estimate_short_pulse
           alternating [] 5 15 (Fin 30) (Fin (2772 # 10000)) false
           0%nat 1%nat (Fin (-99 # 100)) (Fin (98 # 100)));
    [reflexivity|lia|reflexivity..].
Defined.

(** X19.  One significant lag and no quiet window.  When
    [np.any(num_insig == Kn)] is false and exactly one lag has
    [|rho| > rho_k_crit], say lag [i + 1], line 55 leaves in [mhat] the
    one-element array [[i + 1]], not a number.  Line 58 then gives the
    number [mmax] when [mmax < 2 * (i + 1)] and the one-element array
    [[2 * (i + 1)]] otherwise, and [b_star] on a 1D input goes on to the
    estimate of lines 59-66 with that [M]. *)
Theorem single_significant_lag
    (acf : series → list npfloat)
    (block_estimate : series → mval → result npfloat)
    (x : series) (Kn mmax : nat) (Bmax rho_k_crit : npfloat) (round : bool)
    (i : nat) (r : npfloat) :
  let rho_k := tail (acf x) in
  let M := if Z.of_nat mmax <? 2 * (Z.of_nat i + 1)
           then Scalar (Z.of_nat mmax)
           else Indexes [2 * (Z.of_nat i + 1)] in
  np_any ((λ c, Nat.eqb c Kn) <$> num_insig rho_k rho_k_crit Kn mmax)
    = false →
  np_sum ((λ r, fgt (fabs r) rho_k_crit) <$> rho_k) = 1%nat →
  rho_k !! i = Some r → fgt (fabs r) rho_k_crit = true →
  mhat_of rho_k rho_k_crit Kn mmax = Ok (Indexes [Z.of_nat i + 1]) ∧
  select_M (Indexes [Z.of_nat i + 1]) mmax = Ok M ∧
  b_star acf block_estimate (Array1 x) Kn mmax Bmax rho_k_crit round
    = (b ← block_estimate x M;
       Ok (if round then clamp_round Bmax [b] else [b])).
Proof.
  intros rho_k M Hquiet Hone Hi Hsi.
  set (sig := (λ r, fgt (fabs r) rho_k_crit) <$> rho_k) in *.
  assert (sig !! i = Some true) as Hi'
    by (unfold sig; by rewrite list_lookup_fmap, Hi; simpl; rewrite Hsi).
  assert (nonzero_from 0 sig = [i]) as Hnz.
  { pose proof (length_nonzero_from sig 0) as Hlen. rewrite Hone in Hlen.
    pose proof (nonzero_from_elem sig 0 i Hi') as Hin.
    destruct (nonzero_from 0 sig) as [|a [|b l]]; try discriminate.
    apply list_elem_of_singleton in Hin. simpl in Hin. by rewrite Hin. }
  assert (mhat_of rho_k rho_k_crit Kn mmax = Ok (Indexes [Z.of_nat i + 1]))
    as Hm.
  { rewrite mhat_of_cases. cbv zeta. rewrite Hquiet.
    fold sig. by rewrite (np_any_true sig i Hi'), Hnz. }
  assert (select_M (Indexes [Z.of_nat i + 1]) mmax = Ok M) as HM.
  { unfold M. simpl. by destruct (Z.of_nat mmax <? 2 * (Z.of_nat i + 1)). }
  split; [exact Hm|]. split; [exact HM|].
  unfold b_star. cbn [mbind result_bind for_each]. fold rho_k.
  rewrite Hm. cbn [mbind result_bind]. rewrite HM. cbn [mbind result_bind].
  destruct (block_estimate x M); reflexivity.
Qed.

Lemma single_significant_lag_witness :
  mhat_of (tail (acf_seasonal seasonal)) (Fin (5488 # 10000)) 5 9
    = Ok (Indexes [5]) ∧
  select_M (Indexes [5]) 9 = Ok (Scalar 9).
Proof.
  destruct (single_significant_lag acf_seasonal estimate_short_pulse seasonal
              5 9 (Fin 5) (Fin (5488 # 10000)) true 4%nat (Fin (2 # 3)))
    as (Hm & HM & _); [reflexivity..|].
  split; [exact Hm|exact HM].
Defined.

(** ** The kernel [lam] *)

Lemma Qabs_opp_eq (q : Q) : Qabs (- q) = Qabs q.
Proof. destruct q as [n d]. unfold Qabs, Qopp. simpl. by rewrite Z.abs_opp. Qed.

(** X20.  [lam] is the flat-top kernel on [[-1, 1]], the only range that
    [b_star] feeds it ([kk / M] with [|kk| <= M]).  For a finite [s] with
    [|s| <= 1] the value is a number in [[0, 1]]: exactly 1 when
    [|s| < 0.5], and [2 * (1 - |s|)] when [0.5 <= |s| <= 1] (so 1 at 0.5 and
    0 at 1); [-s] gives the same value.  On NaN and on both infinities the
    result is NaN: there the second term multiplies an infinity or NaN by a
    false comparison. *)
Theorem lam_flat_top (q : Q) :
  (Qabs q <= 1)%Q →
  (∃ v, lam (Fin q) = Fin v ∧ (0 <= v)%Q ∧ (v <= 1)%Q ∧
        ((Qabs q < 1 # 2)%Q → (v == 1)%Q) ∧
        ((1 # 2 <= Qabs q)%Q → (v == 2 * (1 - Qabs q))%Q) ∧
        lam (Fin (- q)) = Fin v) ∧
  lam NaN = NaN ∧ lam PosInf = NaN ∧ lam NegInf = NaN.
Proof.
  intros Hq. split; [|by repeat split].
  unfold lam. cbn [fabs]. rewrite Qabs_opp_eq.
  pose proof (Qabs_nonneg q) as H0. revert Hq H0.
  generalize (Qabs q). intros a Ha H0.
  unfold fge, fle, flt, fsub, of_bool.
  destruct (Qlt_le_dec a 0) as [Hneg|_]; [exfalso; lra|].
  destruct (Qlt_le_dec 1 a) as [Hbig|_]; [exfalso; lra|].
  destruct (Qlt_le_dec a (1 # 2)) as [Hlow|Hhigh];
    cbn [andb fmul fadd]; eexists; (split; [reflexivity|]);
    repeat split; try lra; intros; lra.
Qed.

Lemma lam_flat_top_witness :
  (Qabs (3 # 4) <= 1)%Q ∧
  ∃ v, lam (Fin (3 # 4)) = Fin v ∧ (v == 1 # 2)%Q.
Proof.
  assert (Qabs (3 # 4) <= 1)%Q as H by (unfold Qle; simpl; lia).
  split; [exact H|].
  destruct (lam_flat_top (3 # 4) H) as [(v & Hv & _ & _ & _ & Hhigh & _) _].
  exists v. split; [exact Hv|].
  rewrite Hhigh; [reflexivity|unfold Qle; simpl; lia].
Defined.
